(** * Block store, link graph, comment threads and broadcast channel

    A shallow embedding of [server/storage.ts] (class [MemStorage]) and of
    the link route and the WebSocket fan-out of [server/routes.ts], with the
    record shapes of [shared/schema.ts].

    Conventions of the embedding:
    - a JavaScript [Map<string, V>] is an insertion-ordered association list
      ([JsMap.t V]); [Array.from(m.values())] is the list of its values in
      insertion order;
    - a [Date] is its [getTime()] value, a [Z] (milliseconds);
    - [randomUUID()] and [new Date()] are read from the environment: every
      operation that calls them takes the value read as an argument;
    - numbers that are only carried around (the block position) are [Z]. *)

From Stdlib Require Import String ZArith Lia Bool Arith List Permutation Sorted.
Import ListNotations.
Open Scope string_scope.
Open Scope list_scope.

(** ** JavaScript runtime *)

(** [Map<string, V>]: keys are unique and iteration follows insertion
    order; [set] on a key already present keeps its place. *)
Module JsMap.

Definition t (V : Type) : Type := list (string * V).

Definition empty {V : Type} : t V := [].

Fixpoint get {V : Type} (k : string) (m : t V) : option V :=
  match m with
  | [] => None
  | (k', v) :: m' => if String.eqb k k' then Some v else get k m'
  end.

Definition has {V : Type} (k : string) (m : t V) : bool :=
  match get k m with Some _ => true | None => false end.

Fixpoint set {V : Type} (k : string) (v : V) (m : t V) : t V :=
  match m with
  | [] => [(k, v)]
  | (k', v') :: m' =>
      if String.eqb k k' then (k, v) :: m' else (k', v') :: set k v m'
  end.

(** [m.delete(k)]: the map without [k], and whether [k] was present. *)
Definition remove {V : Type} (k : string) (m : t V) : t V :=
  filter (fun e => negb (String.eqb k (fst e))) m.

Definition delete {V : Type} (k : string) (m : t V) : bool * t V :=
  (has k m, remove k m).

Definition keys {V : Type} (m : t V) : list string := map fst m.
Definition values {V : Type} (m : t V) : list V := map snd m.
Definition entries {V : Type} (m : t V) : list (string * V) := m.

End JsMap.

(** [Array.prototype.sort(cmp)]: a stable sort; [a] goes before [b] when
    [cmp a b < 0], and elements that compare equal keep their order.  For a
    consistent comparator the result of a stable sort is unique, so the
    insertion sort below is the function the runtime computes. *)
Module JsArray.

Fixpoint insert {A : Type} (cmp : A -> A -> Z) (x : A) (l : list A) : list A :=
  match l with
  | [] => [x]
  | y :: l' => if (cmp x y <=? 0)%Z then x :: y :: l' else y :: insert cmp x l'
  end.

Definition sort {A : Type} (cmp : A -> A -> Z) (l : list A) : list A :=
  fold_right (insert cmp) [] l.

(** [.filter(Boolean)] on an array of [T | undefined] with [T] an object
    type: every object is truthy, [undefined] is dropped. *)
Fixpoint filter_Boolean {A : Type} (l : list (option A)) : list A :=
  match l with
  | [] => []
  | Some a :: l' => a :: filter_Boolean l'
  | None :: l' => filter_Boolean l'
  end.

End JsArray.

(** Truthiness of a [string | null | undefined]: [null], [undefined] and
    the empty string are falsy.  [truthy s] is the string when [s] is
    truthy. *)
Definition truthy (s : option string) : option string :=
  match s with
  | Some v => if String.eqb v "" then None else Some v
  | None => None
  end.

(** ** shared/schema.ts *)

Definition Date : Type := Z.

Module Position.
Record t : Type := mk { x : Z; y : Z }.
End Position.

Module Block.
Record t : Type := mk {
  id : string;
  title : string;
  content : string;
  contentType : string;
  position : option Position.t;       (* nullable column *)
  tags : option (list string);      (* nullable column *)
  createdAt : Date;
  updatedAt : Date;
  authorId : string;
  authorName : string
}.
End Block.

Module Link.
Record t : Type := mk {
  id : string;
  fromBlockId : string;
  toBlockId : string;
  createdAt : Date
}.
End Link.

Module Comment.
Record t : Type := mk {
  id : string;
  blockId : string;
  content : string;
  authorId : string;
  authorName : string;
  parentId : option string;         (* [None] is [null] *)
  createdAt : Date
}.
End Comment.

(** [InsertBlock]: the insert schema without [id], [createdAt] and
    [updatedAt].  An optional field is [None] when it is absent, and for
    the nullable columns also when it is [null]: [createBlock] reads these
    fields through [||] only, which treats the two alike. *)
Module InsertBlock.
Record t : Type := mk {
  title : string;
  content : option string;
  contentType : option string;
  position : option Position.t;
  tags : option (list string);
  authorId : string;
  authorName : string
}.
End InsertBlock.

(** [Partial<InsertBlock>]: [None] is a key that is absent from the object;
    a nullable column that is present may hold [null] (the inner [None]). *)
Module PartialInsertBlock.
Record t : Type := mk {
  title : option string;
  content : option string;
  contentType : option string;
  position : option (option Position.t);
  tags : option (option (list string));
  authorId : option string;
  authorName : option string
}.
End PartialInsertBlock.

Module InsertLink.
Record t : Type := mk {
  fromBlockId : string;
  toBlockId : string
}.
End InsertLink.

Module InsertComment.
Record t : Type := mk {
  blockId : string;
  content : string;
  authorId : string;
  authorName : string;
  parentId : option string          (* [None]: absent or [null] *)
}.
End InsertComment.

Module BlockWithLinks.
Record t : Type := mk {
  block : Block.t;                  (* the spread [...block] *)
  linkedTo : list Block.t;
  linkedFrom : list Block.t;
  comments : list Comment.t;
  linkCount : nat;
  commentCount : nat
}.
End BlockWithLinks.

#[warnings="-register-all"]
Inductive CommentWithReplies : Type :=
| CWR (comment : Comment.t) (replies : list CommentWithReplies).

(** ** server/storage.ts: class MemStorage *)

Record MemStorage : Type := mkMemStorage {
  blocks : JsMap.t Block.t;
  links : JsMap.t Link.t;
  comments : JsMap.t Comment.t
}.

(** The constructor. *)
Definition newMemStorage : MemStorage :=
  {| blocks := JsMap.empty; links := JsMap.empty; comments := JsMap.empty |}.

Definition getBlocks (this : MemStorage) : list Block.t :=
  JsArray.sort (fun a b => (Block.updatedAt b - Block.updatedAt a)%Z)
               (JsMap.values (blocks this)).

Definition getBlock (this : MemStorage) (id : string) : option Block.t :=
  JsMap.get id (blocks this).

Definition getBlockWithLinks (this : MemStorage) (id : string)
  : option BlockWithLinks.t :=
  match JsMap.get id (blocks this) with
  | None => None
  | Some block =>
      let allLinks := JsMap.values (links this) in
      let outgoingLinks :=
        filter (fun link => String.eqb (Link.fromBlockId link) id) allLinks in
      let incomingLinks :=
        filter (fun link => String.eqb (Link.toBlockId link) id) allLinks in
      let linkedTo :=
        JsArray.filter_Boolean
          (map (fun link => JsMap.get (Link.toBlockId link) (blocks this))
               outgoingLinks) in
      let linkedFrom :=
        JsArray.filter_Boolean
          (map (fun link => JsMap.get (Link.fromBlockId link) (blocks this))
               incomingLinks) in
      let comments_ :=
        filter (fun comment => String.eqb (Comment.blockId comment) id)
               (JsMap.values (comments this)) in
      Some {| BlockWithLinks.block := block;
              BlockWithLinks.linkedTo := linkedTo;
              BlockWithLinks.linkedFrom := linkedFrom;
              BlockWithLinks.comments := comments_;
              BlockWithLinks.linkCount := length linkedTo + length linkedFrom;
              BlockWithLinks.commentCount := length comments_ |}
  end.

(** [a || d] for a string: the empty string is falsy. *)
Definition or_string (a : option string) (d : string) : string :=
  match truthy a with Some v => v | None => d end.

(** [a || d] for an object or array: only [null]/[undefined] are falsy. *)
Definition or_object {A : Type} (a : option A) (d : A) : A :=
  match a with Some v => v | None => d end.

Definition createBlock (this : MemStorage) (insertBlock : InsertBlock.t)
  (id : string) (now : Date) : Block.t * MemStorage :=
  let block :=
    {| Block.id := id;
       Block.title := InsertBlock.title insertBlock;
       Block.content := or_string (InsertBlock.content insertBlock) "";
       Block.contentType := or_string (InsertBlock.contentType insertBlock) "text";
       Block.position :=
         Some (or_object (InsertBlock.position insertBlock) (Position.mk 0 0));
       Block.tags := Some (or_object (InsertBlock.tags insertBlock) []);
       Block.createdAt := now;
       Block.updatedAt := now;
       Block.authorId := InsertBlock.authorId insertBlock;
       Block.authorName := InsertBlock.authorName insertBlock |} in
  (block,
   {| blocks := JsMap.set id block (blocks this);
      links := links this;
      comments := comments this |}).

(** One key of the object spread [{...existingBlock, ...updates}]: the
    value of [updates] when the key is present there, else the existing
    one. *)
Definition spread {A : Type} (existing : A) (update : option A) : A :=
  match update with Some v => v | None => existing end.

Definition updateBlock (this : MemStorage) (id : string)
  (updates : PartialInsertBlock.t) (now : Date)
  : option Block.t * MemStorage :=
  match JsMap.get id (blocks this) with
  | None => (None, this)
  | Some existingBlock =>
      let updatedBlock :=
        {| Block.id := Block.id existingBlock;
           Block.title :=
             spread (Block.title existingBlock) (PartialInsertBlock.title updates);
           Block.content :=
             spread (Block.content existingBlock) (PartialInsertBlock.content updates);
           Block.contentType :=
             spread (Block.contentType existingBlock)
                    (PartialInsertBlock.contentType updates);
           Block.position :=
             spread (Block.position existingBlock)
                    (PartialInsertBlock.position updates);
           Block.tags :=
             spread (Block.tags existingBlock) (PartialInsertBlock.tags updates);
           Block.createdAt := Block.createdAt existingBlock;
           Block.updatedAt := now;
           Block.authorId :=
             spread (Block.authorId existingBlock)
                    (PartialInsertBlock.authorId updates);
           Block.authorName :=
             spread (Block.authorName existingBlock)
                    (PartialInsertBlock.authorName updates) |} in
      (Some updatedBlock,
       {| blocks := JsMap.set id updatedBlock (blocks this);
          links := links this;
          comments := comments this |})
  end.

(** [keys.forEach(k => m.delete(k))]. *)
Definition deleteAll {V : Type} (ks : list string) (m : JsMap.t V) : JsMap.t V :=
  fold_left (fun acc k => snd (JsMap.delete k acc)) ks m.

Definition deleteBlock (this : MemStorage) (id : string) : bool * MemStorage :=
  let (deleted, blocks') := JsMap.delete id (blocks this) in
  if deleted then
    let linksToDelete :=
      map fst
        (filter (fun e => String.eqb (Link.fromBlockId (snd e)) id
                          || String.eqb (Link.toBlockId (snd e)) id)
                (JsMap.entries (links this))) in
    let links' := deleteAll linksToDelete (links this) in
    let commentsToDelete :=
      map fst
        (filter (fun e => String.eqb (Comment.blockId (snd e)) id)
                (JsMap.entries (comments this))) in
    let comments' := deleteAll commentsToDelete (comments this) in
    (deleted, {| blocks := blocks'; links := links'; comments := comments' |})
  else
    (deleted, {| blocks := blocks'; links := links this; comments := comments this |}).

Definition getLinks (this : MemStorage) : list Link.t :=
  JsMap.values (links this).

Definition getLinksForBlock (this : MemStorage) (blockId : string) : list Link.t :=
  filter (fun link => String.eqb (Link.fromBlockId link) blockId
                      || String.eqb (Link.toBlockId link) blockId)
         (JsMap.values (links this)).

Definition createLink (this : MemStorage) (insertLink : InsertLink.t)
  (id : string) (now : Date) : Link.t * MemStorage :=
  let link :=
    {| Link.id := id;
       Link.fromBlockId := InsertLink.fromBlockId insertLink;
       Link.toBlockId := InsertLink.toBlockId insertLink;
       Link.createdAt := now |} in
  (link,
   {| blocks := blocks this;
      links := JsMap.set id link (links this);
      comments := comments this |}).

Definition deleteLink (this : MemStorage) (id : string) : bool * MemStorage :=
  let (deleted, links') := JsMap.delete id (links this) in
  (deleted, {| blocks := blocks this; links := links'; comments := comments this |}).

Definition getLinksBetween (this : MemStorage) (fromBlockId toBlockId : string)
  : list Link.t :=
  filter (fun link =>
            (String.eqb (Link.fromBlockId link) fromBlockId
             && String.eqb (Link.toBlockId link) toBlockId)
            || (String.eqb (Link.fromBlockId link) toBlockId
                && String.eqb (Link.toBlockId link) fromBlockId))
         (JsMap.values (links this)).

Definition createComment (this : MemStorage) (insertComment : InsertComment.t)
  (id : string) (now : Date) : Comment.t * MemStorage :=
  let comment :=
    {| Comment.id := id;
       Comment.content := InsertComment.content insertComment;
       Comment.blockId := InsertComment.blockId insertComment;
       Comment.authorId := InsertComment.authorId insertComment;
       Comment.authorName := InsertComment.authorName insertComment;
       Comment.parentId := truthy (InsertComment.parentId insertComment);
       Comment.createdAt := now |} in
  (comment,
   {| blocks := blocks this;
      links := links this;
      comments := JsMap.set id comment (comments this) |}).

Definition deleteComment (this : MemStorage) (id : string) : bool * MemStorage :=
  let (deleted, comments') := JsMap.delete id (comments this) in
  (deleted, {| blocks := blocks this; links := links this; comments := comments' |}).

Definition getGraphData (this : MemStorage) : list Block.t * list Link.t :=
  (JsMap.values (blocks this), JsMap.values (links this)).

(** *** getCommentsForBlock

    The method builds its result by mutation: [commentMap] holds one node
    object [{ ...comment, replies: [] }] per comment, and the second loop
    pushes references to these objects into the [replies] array of other
    nodes and into [rootComments].  A node that was pushed somewhere may
    still receive replies afterwards, so the embedding keeps the objects in
    a store and the arrays hold references.  Every reference the method
    uses is obtained from [commentMap.get(id)] after the first loop has
    finished, so the key of a node in [commentMap] identifies the object. *)

Record CommentNode : Type := mkCommentNode {
  node_comment : Comment.t;
  node_replies : list string        (* references to nodes of [commentMap] *)
}.

(** First loop: [commentMap.set(comment.id, { ...comment, replies: [] })]. *)
Definition initCommentMap (blockComments : list Comment.t)
  : JsMap.t CommentNode :=
  fold_left
    (fun commentMap comment =>
       JsMap.set (Comment.id comment) (mkCommentNode comment []) commentMap)
    blockComments JsMap.empty.

(** Body of the second loop, on the pair [(commentMap, rootComments)]. *)
Definition linkComment (st : JsMap.t CommentNode * list string)
  (comment : Comment.t) : JsMap.t CommentNode * list string :=
  let (commentMap, rootComments) := st in
  let commentWithReplies := Comment.id comment in
  match truthy (Comment.parentId comment) with
  | Some parentId =>
      match JsMap.get parentId commentMap with
      | Some parent =>
          (JsMap.set parentId
             (mkCommentNode (node_comment parent)
                            (node_replies parent ++ [commentWithReplies]))
             commentMap,
           rootComments)
      | None => (commentMap, rootComments)
      end
  | None => (commentMap, rootComments ++ [commentWithReplies])
  end.

Definition sequence {A : Type} (l : list (option A)) : option (list A) :=
  fold_right
    (fun o acc =>
       match o, acc with
       | Some a, Some r => Some (a :: r)
       | _, _ => None
       end)
    (Some []) l.

(** The value a reference denotes: the node with its replies read through
    the store, to the given depth. *)
Fixpoint deref (fuel : nat) (commentMap : JsMap.t CommentNode) (ref : string)
  : option CommentWithReplies :=
  match fuel with
  | O => None
  | S fuel' =>
      match JsMap.get ref commentMap with
      | None => None
      | Some node =>
          match sequence (map (deref fuel' commentMap) (node_replies node)) with
          | Some replies => Some (CWR (node_comment node) replies)
          | None => None
          end
      end
  end.

Definition blockCommentsOf (this : MemStorage) (blockId : string)
  : list Comment.t :=
  JsArray.sort
    (fun a b => (Comment.createdAt a - Comment.createdAt b)%Z)
    (filter (fun comment => String.eqb (Comment.blockId comment) blockId)
            (JsMap.values (comments this))).

(** The store and the root references when the second loop has ended. *)
Definition commentForest (blockComments : list Comment.t)
  : JsMap.t CommentNode * list string :=
  fold_left linkComment blockComments (initCommentMap blockComments, []).

(** The returned array, read to a depth no chain of replies can exceed
    ([None] would mean the depth was not enough). *)
Definition getCommentsForBlock (this : MemStorage) (blockId : string)
  : option (list CommentWithReplies) :=
  let blockComments := blockCommentsOf this blockId in
  let (commentMap, rootComments) := commentForest blockComments in
  sequence (map (deref (S (length blockComments)) commentMap) rootComments).

(** *** Runs of the store

    The mutating methods as one operation type, each call with the clock
    value its [new Date()] reads (methods that read no clock ignore it). *)

Inductive StoreOp : Type :=
| OpCreateBlock (insertBlock : InsertBlock.t) (id : string)
| OpUpdateBlock (id : string) (updates : PartialInsertBlock.t)
| OpDeleteBlock (id : string)
| OpCreateLink (insertLink : InsertLink.t) (id : string)
| OpDeleteLink (id : string)
| OpCreateComment (insertComment : InsertComment.t) (id : string)
| OpDeleteComment (id : string).

Definition applyOp (this : MemStorage) (call : Date * StoreOp) : MemStorage :=
  let (now, op) := call in
  match op with
  | OpCreateBlock insertBlock id => snd (createBlock this insertBlock id now)
  | OpUpdateBlock id updates => snd (updateBlock this id updates now)
  | OpDeleteBlock id => snd (deleteBlock this id)
  | OpCreateLink insertLink id => snd (createLink this insertLink id now)
  | OpDeleteLink id => snd (deleteLink this id)
  | OpCreateComment insertComment id =>
      snd (createComment this insertComment id now)
  | OpDeleteComment id => snd (deleteComment this id)
  end.

Definition run (calls : list (Date * StoreOp)) (this : MemStorage) : MemStorage :=
  fold_left applyOp calls this.

(** The clock never runs backwards between two calls. *)
Definition clockMonotone (calls : list (Date * StoreOp)) : Prop :=
  Sorted Z.le (map fst calls).

(** ** server/routes.ts

    The handlers run in a world made of the storage singleton, the
    registry [clients] and a trace of the calls they make to their
    collaborators.  A computation either returns or throws; what it did to
    the world before a throw stays done. *)

Inductive ReadyState : Type := CONNECTING | OPEN | CLOSING | CLOSED.

(** A connection handle, in the state it has when a handler looks at it.
    [sendThrows] is the environment's answer to [client.send(data)] on this
    socket: whether the call throws. *)
Record WebSocket : Type := mkWebSocket {
  ws : nat;                         (* identity of the object *)
  readyState : ReadyState;
  sendThrows : bool
}.

Inductive Payload : Type :=
| PayloadBlock (block : Block.t)
| PayloadLink (link : Link.t)
| PayloadComment (comment : Comment.t)
| PayloadId (id : string).

Record Message : Type := mkMessage { type : string; data : Payload }.

Inductive Effect : Type :=
| CallGetLinksBetween (fromBlockId toBlockId : string)
| CallCreateLink (insertLink : InsertLink.t)
| CallStringify (message : Message)
| CallSend (client : nat) (data : string)      (* the send went through *)
| CallSendThrew (client : nat) (data : string). (* the send threw *)

Record World : Type := mkWorld {
  storage : MemStorage;
  clients : list WebSocket;         (* [Set<WebSocket>], in insertion order *)
  trace : list Effect
}.

Inductive Outcome (A : Type) : Type :=
| Returned (a : A)
| Thrown.
Arguments Returned {A} a.
Arguments Thrown {A}.

Definition M (A : Type) : Type := World -> Outcome A * World.

Definition ret {A : Type} (a : A) : M A := fun w => (Returned a, w).

Definition throw {A : Type} : M A := fun w => (Thrown, w).

Definition bind {A B : Type} (m : M A) (k : A -> M B) : M B :=
  fun w =>
    match m w with
    | (Returned a, w') => k a w'
    | (Thrown, w') => (Thrown, w')
    end.

(** [try { body } catch (error) { handler }]. *)
Definition tryCatch {A : Type} (body handler : M A) : M A :=
  fun w =>
    match body w with
    | (Returned a, w') => (Returned a, w')
    | (Thrown, w') => handler w'
    end.

Declare Scope route_scope.
Delimit Scope route_scope with route.
Notation "x <- m ;; k" := (bind m (fun x => k))
  (at level 61, m at next level, right associativity) : route_scope.
Notation "m ;;; k" := (bind m (fun _ => k))
  (at level 61, right associativity) : route_scope.

Definition logEffect (e : Effect) : M unit :=
  fun w =>
    (Returned tt,
     {| storage := storage w; clients := clients w; trace := trace w ++ [e] |}).

(** [xs.forEach(f)]: stops at the first call that throws. *)
Fixpoint forEach {A : Type} (f : A -> M unit) (xs : list A) : M unit :=
  match xs with
  | [] => ret tt
  | a :: xs' => bind (f a) (fun _ => forEach f xs')
  end.

(** [wss.on('connection', ...)] and the two listeners it installs. *)
Definition sameSocket (a b : WebSocket) : bool := Nat.eqb (ws a) (ws b).

Definition setAdd (c : WebSocket) (set : list WebSocket) : list WebSocket :=
  if existsb (sameSocket c) set then set else set ++ [c].

Definition setDelete (c : WebSocket) (set : list WebSocket) : list WebSocket :=
  filter (fun c' => negb (sameSocket c c')) set.

Definition onConnection (c : WebSocket) (w : World) : World :=
  {| storage := storage w; clients := setAdd c (clients w); trace := trace w |}.

Definition onClose (c : WebSocket) (w : World) : World :=
  {| storage := storage w; clients := setDelete c (clients w); trace := trace w |}.

Definition onError (c : WebSocket) (w : World) : World :=
  {| storage := storage w; clients := setDelete c (clients w); trace := trace w |}.

Inductive ResponseBody : Type :=
| JsonMessage (message : string)    (* [{ message }] *)
| JsonLink (link : Link.t).

Record Response : Type := mkResponse { status : Z; body : ResponseBody }.

Section Routes.

(** [JSON.stringify], a builtin of the runtime. *)
Variable JSON_stringify : Message -> string.

Definition stringify (message : Message) : M string :=
  (logEffect (CallStringify message) ;;; ret (JSON_stringify message))%route.

Definition send (client : WebSocket) (data : string) : M unit :=
  if sendThrows client
  then (logEffect (CallSendThrew (ws client) data) ;;; throw)%route
  else logEffect (CallSend (ws client) data).

Definition isOpen (client : WebSocket) : bool :=
  match readyState client with OPEN => true | _ => false end.

(** The callback of [clients.forEach] in [broadcastToClients]. *)
Definition sendIfOpen (messageStr : string) (client : WebSocket) : M unit :=
  if isOpen client then send client messageStr else ret tt.

Definition broadcastToClients (message : Message) : M unit :=
  (messageStr <- stringify message ;;
   fun w => forEach (sendIfOpen messageStr) (clients w) w)%route.

Definition storage_getLinksBetween (fromBlockId toBlockId : string)
  : M (list Link.t) :=
  (logEffect (CallGetLinksBetween fromBlockId toBlockId) ;;;
   fun w => ret (getLinksBetween (storage w) fromBlockId toBlockId) w)%route.

Definition storage_createLink (insertLink : InsertLink.t) (id : string)
  (now : Date) : M Link.t :=
  (logEffect (CallCreateLink insertLink) ;;;
   fun w =>
     let (link, storage') := createLink (storage w) insertLink id now in
     (Returned link,
      {| storage := storage'; clients := clients w; trace := trace w |}))%route.

(** [insertLinkSchema.parse(req.body)]: the validated link, or a throw.
    The argument is the outcome of the validation. *)
Definition parse (parsed : option InsertLink.t) : M InsertLink.t :=
  match parsed with
  | Some validatedLink => ret validatedLink
  | None => throw
  end.

(** [app.post("/api/links", ...)]; [id] and [now] are what [createLink]
    would read from [randomUUID()] and [new Date()]. *)
Definition postApiLinks (parsed : option InsertLink.t) (id : string)
  (now : Date) : M Response :=
  tryCatch
    (validatedLink <- parse parsed ;;
     existingLinks <-
       storage_getLinksBetween (InsertLink.fromBlockId validatedLink)
                               (InsertLink.toBlockId validatedLink) ;;
     if Nat.ltb 0 (length existingLinks)
     then ret (mkResponse 400%Z (JsonMessage "Link already exists"))
     else
       link <- storage_createLink validatedLink id now ;;
       broadcastToClients (mkMessage "link_created" (PayloadLink link)) ;;;
       ret (mkResponse 200%Z (JsonLink link)))%route
    (ret (mkResponse 400%Z (JsonMessage "Invalid link data"))).

End Routes.

(** ** server/storage.ts: searchBlocks *)

(** [s.includes(search)]: [search] occurs in [s] as a substring. *)
Fixpoint includes (s search : string) : bool :=
  String.prefix search s
  || match s with
     | EmptyString => false
     | String _ s' => includes s' search
     end.

Section Search.

(** [String.prototype.toLowerCase], a builtin of the runtime. *)
Variable toLowerCase : string -> string.

Definition searchBlocks (this : MemStorage) (query : string) : list Block.t :=
  let blocks_ := JsMap.values (blocks this) in
  let lowercaseQuery := toLowerCase query in
  filter
    (fun block =>
       includes (toLowerCase (Block.title block)) lowercaseQuery
       || includes (toLowerCase (Block.content block)) lowercaseQuery
       || existsb (fun tag => includes (toLowerCase tag) lowercaseQuery)
                  (or_object (Block.tags block) []))
    blocks_.

End Search.

(** ** server/routes.ts: the other routes *)

(** What a handler passes to [res.json]. *)
Inductive Json : Type :=
| JsonBlocks (blocks : list Block.t)
| JsonBlock (block : Block.t)
| JsonBlockWithLinks (block : BlockWithLinks.t)
| JsonLinks (links : list Link.t)
| JsonComment (comment : Comment.t)
| JsonComments (comments : list CommentWithReplies)
| JsonGraph (nodes : list Block.t) (edges : list Link.t)
| JsonSuccess                       (* [{ success: true }] *)
| JsonError (message : string).     (* [{ message }] *)

Record Reply : Type := mkReply { code : Z; json : Json }.

(** A call of a storage method that reads, and one that may write. *)
Definition readStorage {A : Type} (f : MemStorage -> A) : M A :=
  fun w => (Returned (f (storage w)), w).

Definition withStorage {A : Type} (f : MemStorage -> A * MemStorage) : M A :=
  fun w =>
    let (a, storage') := f (storage w) in
    (Returned a, {| storage := storage'; clients := clients w; trace := trace w |}).

(** [schema.parse(...)]: the validated value, or a throw.  The argument
    is the outcome of the validation. *)
Definition parseBody {A : Type} (parsed : option A) : M A :=
  match parsed with
  | Some validated => ret validated
  | None => throw
  end.

(** A value of [req.query]: the parameter is absent, or given once (a
    string), or given several times or with brackets (an array or an
    object, as in [?q=a&q=b] and [?q[x]=a]). *)
Inductive QueryValue : Type :=
| QueryUndefined
| QueryString (text : string)
| QueryStructured.

Section Handlers.

Variable JSON_stringify : Message -> string.
Variable toLowerCase : string -> string.

(** [app.get("/api/blocks", ...)] *)
Definition getApiBlocks : M Reply :=
  tryCatch
    (blocks_ <- readStorage getBlocks ;;
     ret (mkReply 200%Z (JsonBlocks blocks_)))%route
    (ret (mkReply 500%Z (JsonError "Failed to fetch blocks"))).

(** [app.get("/api/blocks/:id", ...)] *)
Definition getApiBlock (id : string) : M Reply :=
  tryCatch
    (block <- readStorage (fun this => getBlockWithLinks this id) ;;
     match block with
     | None => ret (mkReply 404%Z (JsonError "Block not found"))
     | Some found => ret (mkReply 200%Z (JsonBlockWithLinks found))
     end)%route
    (ret (mkReply 500%Z (JsonError "Failed to fetch block"))).

(** [app.post("/api/blocks", ...)] *)
Definition postApiBlocks (parsed : option InsertBlock.t) (id : string)
  (now : Date) : M Reply :=
  tryCatch
    (validatedBlock <- parseBody parsed ;;
     block <- withStorage (fun this => createBlock this validatedBlock id now) ;;
     broadcastToClients JSON_stringify
       (mkMessage "block_created" (PayloadBlock block)) ;;;
     ret (mkReply 200%Z (JsonBlock block)))%route
    (ret (mkReply 400%Z (JsonError "Invalid block data"))).

(** [app.put("/api/blocks/:id", ...)] *)
Definition putApiBlock (id : string) (parsed : option PartialInsertBlock.t)
  (now : Date) : M Reply :=
  tryCatch
    (updates <- parseBody parsed ;;
     block <- withStorage (fun this => updateBlock this id updates now) ;;
     match block with
     | None => ret (mkReply 404%Z (JsonError "Block not found"))
     | Some updated =>
         broadcastToClients JSON_stringify
           (mkMessage "block_updated" (PayloadBlock updated)) ;;;
         ret (mkReply 200%Z (JsonBlock updated))
     end)%route
    (ret (mkReply 400%Z (JsonError "Invalid update data"))).

(** [app.delete("/api/blocks/:id", ...)] *)
Definition deleteApiBlock (id : string) : M Reply :=
  tryCatch
    (deleted <- withStorage (fun this => deleteBlock this id) ;;
     if negb deleted
     then ret (mkReply 404%Z (JsonError "Block not found"))
     else
       broadcastToClients JSON_stringify
         (mkMessage "block_deleted" (PayloadId id)) ;;;
       ret (mkReply 200%Z JsonSuccess))%route
    (ret (mkReply 500%Z (JsonError "Failed to delete block"))).

(** [app.get("/api/search", ...)]; [q] is [req.query.q], which the
    handler casts to [string] without a check.  An array or an object is
    truthy, so it passes [if (!query)]; [searchBlocks] then calls
    [query.toLowerCase()], which is not a function on it, and the call
    throws. *)
Definition getApiSearch (q : QueryValue) : M Reply :=
  tryCatch
    (match q with
     | QueryUndefined =>
         ret (mkReply 400%Z (JsonError "Query parameter required"))
     | QueryString text =>
         match truthy (Some text) with
         | None => ret (mkReply 400%Z (JsonError "Query parameter required"))
         | Some query =>
             results <-
               readStorage (fun this => searchBlocks toLowerCase this query) ;;
             ret (mkReply 200%Z (JsonBlocks results))
         end
     | QueryStructured => throw
     end)%route
    (ret (mkReply 500%Z (JsonError "Search failed"))).

(** [app.get("/api/links", ...)] *)
Definition getApiLinks : M Reply :=
  tryCatch
    (links_ <- readStorage getLinks ;;
     ret (mkReply 200%Z (JsonLinks links_)))%route
    (ret (mkReply 500%Z (JsonError "Failed to fetch links"))).

(** [app.delete("/api/links/:id", ...)] *)
Definition deleteApiLink (id : string) : M Reply :=
  tryCatch
    (deleted <- withStorage (fun this => deleteLink this id) ;;
     if negb deleted
     then ret (mkReply 404%Z (JsonError "Link not found"))
     else
       broadcastToClients JSON_stringify
         (mkMessage "link_deleted" (PayloadId id)) ;;;
       ret (mkReply 200%Z JsonSuccess))%route
    (ret (mkReply 500%Z (JsonError "Failed to delete link"))).

(** [app.get("/api/blocks/:blockId/comments", ...)].  The result of
    [getCommentsForBlock] is read through its references when it is
    serialized; the depth always suffices (see the thread properties), and
    the embedding throws if it did not. *)
Definition getApiComments (blockId : string) : M Reply :=
  tryCatch
    (comments_ <- readStorage (fun this => getCommentsForBlock this blockId) ;;
     match comments_ with
     | Some forest => ret (mkReply 200%Z (JsonComments forest))
     | None => throw
     end)%route
    (ret (mkReply 500%Z (JsonError "Failed to fetch comments"))).

(** [app.post("/api/blocks/:blockId/comments", ...)]: the body is
    validated with its [blockId] replaced by the one of the URL. *)
Definition postApiComments (blockId : string)
  (parsed : option InsertComment.t) (id : string) (now : Date) : M Reply :=
  tryCatch
    (validatedComment <-
       parseBody
         (option_map
            (fun body =>
               InsertComment.mk blockId
                                (InsertComment.content body)
                                (InsertComment.authorId body)
                                (InsertComment.authorName body)
                                (InsertComment.parentId body))
            parsed) ;;
     comment <-
       withStorage (fun this => createComment this validatedComment id now) ;;
     broadcastToClients JSON_stringify
       (mkMessage "comment_created" (PayloadComment comment)) ;;;
     ret (mkReply 200%Z (JsonComment comment)))%route
    (ret (mkReply 400%Z (JsonError "Invalid comment data"))).

(** [app.delete("/api/comments/:id", ...)] *)
Definition deleteApiComment (id : string) : M Reply :=
  tryCatch
    (deleted <- withStorage (fun this => deleteComment this id) ;;
     if negb deleted
     then ret (mkReply 404%Z (JsonError "Comment not found"))
     else
       broadcastToClients JSON_stringify
         (mkMessage "comment_deleted" (PayloadId id)) ;;;
       ret (mkReply 200%Z JsonSuccess))%route
    (ret (mkReply 500%Z (JsonError "Failed to delete comment"))).

(** [app.get("/api/graph", ...)] *)
Definition getApiGraph : M Reply :=
  tryCatch
    (graphData <- readStorage getGraphData ;;
     ret (mkReply 200%Z (JsonGraph (fst graphData) (snd graphData))))%route
    (ret (mkReply 500%Z (JsonError "Failed to fetch graph data"))).

End Handlers.

(** ** Sample data *)

Definition sampleInsertBlock (title : string) : InsertBlock.t :=
  InsertBlock.mk title None None None None "u1" "Ann".

Definition sampleInsertComment (blockId : string) (parentId : option string)
  : InsertComment.t :=
  InsertComment.mk blockId "text" "u1" "Ann" parentId.

(** Blocks A and B, the link A -> B, and on A the comment C1 with its
    reply C2. *)
Definition sampleCalls : list (Date * StoreOp) :=
  [ (1%Z, OpCreateBlock (sampleInsertBlock "A") "A");
    (2%Z, OpCreateBlock (sampleInsertBlock "B") "B");
    (3%Z, OpCreateLink (InsertLink.mk "A" "B") "L1");
    (4%Z, OpCreateComment (sampleInsertComment "A" None) "C1");
    (5%Z, OpCreateComment (sampleInsertComment "A" (Some "C1")) "C2") ].

Definition sampleStore : MemStorage := run sampleCalls newMemStorage.

(** A rename of block A, at clock reading 9. *)
Definition sampleUpdates : PartialInsertBlock.t :=
  PartialInsertBlock.mk (Some "A2") None None None None None None.

Definition sampleCallsWithUpdate : list (Date * StoreOp) :=
  sampleCalls ++ [ (9%Z, OpUpdateBlock "A" sampleUpdates) ].

(** The blocks A and B as [sampleStore] holds them. *)
Definition blockA : Block.t :=
  Block.mk "A" "A" "" "text" (Some (Position.mk 0 0)) (Some []) 1%Z 1%Z
           "u1" "Ann".

Definition blockB : Block.t :=
  Block.mk "B" "B" "" "text" (Some (Position.mk 0 0)) (Some []) 2%Z 2%Z
           "u1" "Ann".

(** What [getBlockWithLinks] answers for block B of [sampleStore]. *)
Definition sampleBlockB : BlockWithLinks.t :=
  BlockWithLinks.mk blockB [] [blockA] [] 1 0.

(** A stand-in for [JSON.stringify] in the samples. *)
Definition sampleStringify (message : Message) : string := type message.

(** [sampleStore] after a POST of the link B -> B to [/api/links], with no
    client connected. *)
Definition selfLinkWorld : Outcome Response * World :=
  postApiLinks sampleStringify (Some (InsertLink.mk "B" "B")) "L2" 6%Z
               (mkWorld sampleStore [] []).

Definition selfLinkStore : MemStorage := storage (snd selfLinkWorld).

(** What [getBlockWithLinks] answers for block B of [selfLinkStore]. *)
Definition selfLinkBlockB : BlockWithLinks.t :=
  BlockWithLinks.mk blockB [blockB] [blockA; blockB] [] 3 0.

(** Two ready connections; [send] throws on the first. *)
Definition sampleMessage : Message :=
  mkMessage "block_created" (PayloadBlock blockA).

Definition brokenClient : WebSocket := mkWebSocket 1 OPEN true.
Definition readyClient : WebSocket := mkWebSocket 2 OPEN false.
Definition closingClient : WebSocket := mkWebSocket 3 CLOSING false.

Definition brokenFirstWorld : World :=
  onConnection readyClient
    (onConnection brokenClient (mkWorld sampleStore [] [])).

(** Three connections, the second one closing, none with a failing send. *)
Definition healthyWorld : World :=
  onConnection (mkWebSocket 4 OPEN false)
    (onConnection closingClient
       (onConnection readyClient (mkWorld sampleStore [] []))).

(** [sampleStore] after comment C1 was deleted: its reply C2 stays in the
    table. *)
Definition orphanStore : MemStorage :=
  run (sampleCalls ++ [ (6%Z, OpDeleteComment "C1") ]) newMemStorage.

(** [sampleStore] with a comment C3 on block B that names C1, a comment
    on block A, as its parent. *)
Definition crossBlockStore : MemStorage :=
  run (sampleCalls
       ++ [ (6%Z, OpCreateComment (sampleInsertComment "B" (Some "C1")) "C3") ])
      newMemStorage.

Definition commentC1 : Comment.t :=
  Comment.mk "C1" "A" "text" "u1" "Ann" None 4%Z.

Definition commentC2 : Comment.t :=
  Comment.mk "C2" "A" "text" "u1" "Ann" (Some "C1") 5%Z.

(** Block A created at clock reading 2 and renamed at reading 0: the clock
    was set back between the two calls. *)
Definition backwardsCalls : list (Date * StoreOp) :=
  [ (2%Z, OpCreateBlock (sampleInsertBlock "A") "A");
    (0%Z, OpUpdateBlock "A" sampleUpdates) ].

(** ** Specification vocabulary *)

(** The value of one field after the merge of a partial update. *)
Definition merged {A : Type} (existing : A) (update : option A) (result : A)
  : Prop :=
  match update with
  | Some v => result = v
  | None => result = existing
  end.

(** [a] may stand before [b] in an array sorted with [cmp]. *)
Definition before {A : Type} (cmp : A -> A -> Z) (a b : A) : Prop :=
  (cmp a b <= 0)%Z.

(** Most recently modified first. *)
Definition newerFirst (a b : Block.t) : Prop :=
  (Block.updatedAt b <= Block.updatedAt a)%Z.

(** The invariant of the block table. *)
Definition blockTimesOk (this : MemStorage) : Prop :=
  forall block, In block (JsMap.values (blocks this)) ->
    (Block.createdAt block <= Block.updatedAt block)%Z.

(** A link that touches block [B] and whose opposite endpoint is a block
    of the store. *)
Definition incidentResolvable (this : MemStorage) (B : string) (link : Link.t)
  : bool :=
  (String.eqb (Link.fromBlockId link) B
   && JsMap.has (Link.toBlockId link) (blocks this))
  || (String.eqb (Link.toBlockId link) B
      && JsMap.has (Link.fromBlockId link) (blocks this)).

(** A link from [B] to [B]. *)
Definition selfLink (B : string) (link : Link.t) : bool :=
  String.eqb (Link.fromBlockId link) B && String.eqb (Link.toBlockId link) B.

(** Every block was created, and last modified after that, no later than
    clock reading [t]. *)
Definition blockTimesUpTo (t : Date) (this : MemStorage) : Prop :=
  forall block, In block (JsMap.values (blocks this)) ->
    (Block.createdAt block <= Block.updatedAt block)%Z
    /\ (Block.createdAt block <= t)%Z.

(** The world after [e] was appended to the trace. *)
Definition logged (w : World) (es : list Effect) : World :=
  {| storage := storage w; clients := clients w; trace := trace w ++ es |}.

(** The successful sends of [data] to the ready connections of a list. *)
Definition deliveries (data : string) (cs : list WebSocket) : list Effect :=
  map (fun client => CallSend (ws client) data) (filter isOpen cs).

(** No ready connection of the list has a [send] that throws. *)
Definition sendsGoThrough (cs : list WebSocket) : Prop :=
  forall client, In client cs -> isOpen client = true -> sendThrows client = false.

(** The link joins blocks [A] and [B], in one direction or the other. *)
Definition joins (A B : string) (fromBlockId toBlockId : string) : Prop :=
  (fromBlockId = A /\ toBlockId = B) \/ (fromBlockId = B /\ toBlockId = A).

(** *** Comment threads *)

(** The parent a comment names, when its [parentId] is truthy. *)
Definition parentRef (c : Comment.t) : option string :=
  truthy (Comment.parentId c).

Definition isRoot (c : Comment.t) : bool :=
  match parentRef c with None => true | Some _ => false end.

Definition isChildOf (p : string) (c : Comment.t) : bool :=
  match parentRef c with Some q => String.eqb q p | None => false end.

(** The comments of a list without parent, and those that name [p]. *)
Definition rootsOf (cs : list Comment.t) : list Comment.t := filter isRoot cs.

Definition childrenOf (cs : list Comment.t) (p : string) : list Comment.t :=
  filter (isChildOf p) cs.

(** The state of the second loop of [getCommentsForBlock] over the
    comments [cs] when it has gone through the comments [done]: the roots
    seen so far, and for each comment its node with the replies seen so
    far. *)
Definition forestState (cs done : list Comment.t)
  (st : JsMap.t CommentNode * list string) : Prop :=
  snd st = map Comment.id (rootsOf done)
  /\ (forall c, In c cs ->
        JsMap.get (Comment.id c) (fst st)
        = Some (mkCommentNode c (map Comment.id (childrenOf done (Comment.id c)))))
  /\ (forall k, ~ In k (map Comment.id cs) -> JsMap.get k (fst st) = None).

(** The comment at the head of a tree, the comments of a tree and of a
    forest at all depths, and the subtrees of a tree. *)
Definition rootOf (t : CommentWithReplies) : Comment.t :=
  match t with CWR c _ => c end.

Fixpoint flat (t : CommentWithReplies) : list Comment.t :=
  match t with CWR c ts => c :: flat_map flat ts end.

Definition flatForest (ts : list CommentWithReplies) : list Comment.t :=
  flat_map flat ts.

Fixpoint nodes (t : CommentWithReplies) : list CommentWithReplies :=
  match t with CWR c ts => CWR c ts :: flat_map nodes ts end.

(** A comment is attached when the chain of parents it names stays among
    the comments [cs] and ends in a comment without parent. *)
Inductive attached (cs : list Comment.t) : Comment.t -> Prop :=
| attached_root c :
    In c cs -> parentRef c = None -> attached cs c
| attached_reply c p :
    In c cs -> In p cs -> parentRef c = Some (Comment.id p) ->
    attached cs p -> attached cs c.

(** [atDepth cs k c]: that chain has [k] links. *)
Fixpoint atDepth (cs : list Comment.t) (k : nat) (c : Comment.t) : Prop :=
  match k with
  | O => parentRef c = None
  | S k' =>
      exists p, In p cs /\ parentRef c = Some (Comment.id p) /\ atDepth cs k' p
  end.

(** The tree below a comment, computed from the list of comments alone. *)
Fixpoint build (fuel : nat) (cs : list Comment.t) (c : Comment.t)
  : option CommentWithReplies :=
  match fuel with
  | O => None
  | S fuel' =>
      match sequence (map (build fuel' cs) (childrenOf cs (Comment.id c))) with
      | Some ts => Some (CWR c ts)
      | None => None
      end
  end.

(** The replies to the comments of [X]; the [k]-th generation below [X];
    the first [n] generations from [X] on, one after the other. *)
Definition kids (cs X : list Comment.t) : list Comment.t :=
  flat_map (fun p => childrenOf cs (Comment.id p)) X.

Fixpoint generation (cs : list Comment.t) (k : nat) (X : list Comment.t)
  : list Comment.t :=
  match k with
  | O => X
  | S k' => generation cs k' (kids cs X)
  end.

Fixpoint generations (cs : list Comment.t) (n : nat) (X : list Comment.t)
  : list Comment.t :=
  match n with
  | O => []
  | S n' => X ++ generations cs n' (kids cs X)
  end.

(** The comments of the table have pairwise distinct ids (each is stored
    under its id, and the keys of a [Map] are distinct). *)
Definition commentIdsUnique (this : MemStorage) : Prop :=
  NoDup (map Comment.id (JsMap.values (comments this))).

(** Every comment is stored under its own id, and no key occurs twice. *)
Definition commentTableOk (m : JsMap.t Comment.t) : Prop :=
  NoDup (JsMap.keys m) /\ forall k c, In (k, c) m -> Comment.id c = k.

(** *** Tables and stores *)

(** Every record of a table is stored under its own id, and no key occurs
    twice. *)
Definition tableOk {V : Type} (idOf : V -> string) (m : JsMap.t V) : Prop :=
  NoDup (JsMap.keys m) /\ forall k v, In (k, v) m -> idOf v = k.

Definition storeOk (this : MemStorage) : Prop :=
  tableOk Block.id (blocks this)
  /\ tableOk Link.id (links this)
  /\ tableOk Comment.id (comments this).

(** The link has [B] as source or as destination. *)
Definition touches (B : string) (link : Link.t) : bool :=
  String.eqb (Link.fromBlockId link) B || String.eqb (Link.toBlockId link) B.

(** The link table holds at most one link for every pair of blocks,
    whatever the direction. *)
Definition linksAtMostOnce (this : MemStorage) : Prop :=
  forall a b, length (getLinksBetween this a b) <= 1.

(** Comments in creation order. *)
Definition olderFirst (a b : Comment.t) : Prop :=
  (Comment.createdAt a <= Comment.createdAt b)%Z.

(** No socket is in the registry twice. *)
Definition registryOk (w : World) : Prop := NoDup (map ws (clients w)).

(** The world with another storage. *)
Definition stored (w : World) (this : MemStorage) : World :=
  {| storage := this; clients := clients w; trace := trace w |}.

(** [search] occurs in [s]: [s] is [pre ++ search ++ post]. *)
Definition occursIn (search s : string) : Prop :=
  exists pre post : string, s = String.append pre (String.append search post).

(** The effect is a send to the socket [n]. *)
Definition isSendTo (n : nat) (e : Effect) : bool :=
  match e with
  | CallSend client _ => Nat.eqb client n
  | _ => false
  end.

(** * Properties *)

(** ** Facts about [JsMap] *)

Module JsMapFacts.
Section Facts.
Context {V : Type}.
Implicit Types (m : JsMap.t V) (k : string) (v : V).

Lemma get_set_eq m k v : JsMap.get k (JsMap.set k v m) = Some v.
Proof.
  induction m as [|[k' v'] m IH]; simpl.
  - now rewrite String.eqb_refl.
  - destruct (String.eqb k k') eqn:E; simpl.
    + now rewrite String.eqb_refl.
    + now rewrite E.
Qed.

Lemma get_set_ne m k k' v :
  k <> k' -> JsMap.get k' (JsMap.set k v m) = JsMap.get k' m.
Proof.
  intros Hne. induction m as [|[k0 v0] m IH]; simpl.
  - destruct (String.eqb_spec k' k); [congruence | reflexivity].
  - destruct (String.eqb_spec k k0) as [->|Hk]; simpl.
    + destruct (String.eqb_spec k' k0); [congruence | reflexivity].
    + now rewrite IH.
Qed.

Lemma get_In m k v : JsMap.get k m = Some v -> In (k, v) m.
Proof.
  induction m as [|[k' v'] m IH]; simpl; [discriminate|].
  destruct (String.eqb_spec k k') as [->|Hk]; intros H.
  - injection H as ->. now left.
  - right. now apply IH.
Qed.

Lemma get_None_keys m k : JsMap.get k m = None <-> ~ In k (JsMap.keys m).
Proof.
  induction m as [|[k' v'] m IH]; simpl; [tauto|].
  destruct (String.eqb_spec k k') as [->|Hk].
  - split; [discriminate | intros H; exfalso; apply H; now left].
  - rewrite IH. split; [intros H [E|E]; [congruence | tauto] | tauto].
Qed.

Lemma In_get m k v :
  NoDup (JsMap.keys m) -> In (k, v) m -> JsMap.get k m = Some v.
Proof.
  induction m as [|[k' v'] m IH]; simpl; [tauto|].
  intros Hnd [E|Hin].
  - injection E as -> ->. now rewrite String.eqb_refl.
  - inversion Hnd as [|? ? Hk' Hnd']; subst.
    destruct (String.eqb_spec k k') as [->|Hk]; [|now apply IH].
    exfalso. apply Hk'. change k' with (fst (k', v)). now apply in_map.
Qed.

(** A fresh key goes to the end of the iteration order. *)
Lemma set_fresh m k v : JsMap.get k m = None -> JsMap.set k v m = m ++ [(k, v)].
Proof.
  induction m as [|[k' v'] m IH]; simpl; [reflexivity|].
  destruct (String.eqb k k'); [discriminate|]. intros H. now rewrite IH.
Qed.

(** A key already present keeps its place. *)
Lemma keys_set_present m k v :
  JsMap.get k m <> None -> JsMap.keys (JsMap.set k v m) = JsMap.keys m.
Proof.
  induction m as [|[k' v'] m IH]; simpl; [congruence|].
  destruct (String.eqb_spec k k') as [->|Hk]; simpl; [reflexivity|].
  intros H. now rewrite IH.
Qed.

Lemma In_remove m k e : In e (JsMap.remove k m) <-> In e m /\ fst e <> k.
Proof.
  unfold JsMap.remove. rewrite filter_In.
  destruct (String.eqb_spec k (fst e)); simpl; intuition congruence.
Qed.

Lemma get_remove_eq m k : JsMap.get k (JsMap.remove k m) = None.
Proof.
  apply get_None_keys. unfold JsMap.keys. rewrite in_map_iff.
  intros [e [E Hin]]. apply In_remove in Hin. tauto.
Qed.

Lemma In_deleteAll ks m e :
  In e (deleteAll ks m) <-> In e m /\ ~ In (fst e) ks.
Proof.
  unfold deleteAll. revert m. induction ks as [|k ks IH]; intros m; simpl.
  - tauto.
  - rewrite IH, In_remove. intuition congruence.
Qed.

End Facts.
End JsMapFacts.

(** ** deleteBlock *)

(** C1 (cascade completeness).  When [deleteBlock(B)] returns [true], the
    block is gone, no link of the link table has [B] as source or as
    destination, and no comment of the comment table is owned by [B]. *)
Theorem deleteBlock_cascade (this this' : MemStorage) (B : string) :
  deleteBlock this B = (true, this') ->
  getBlock this' B = None
  /\ (forall link, In link (getLinks this') ->
        Link.fromBlockId link <> B /\ Link.toBlockId link <> B)
  /\ (forall comment, In comment (JsMap.values (comments this')) ->
        Comment.blockId comment <> B).
Proof.
  unfold deleteBlock, JsMap.delete, getBlock, getLinks, JsMap.entries.
  destruct (JsMap.has B (blocks this)); [|discriminate].
  intros H. injection H as <-. simpl. split; [|split].
  - apply JsMapFacts.get_remove_eq.
  - intros link Hin. unfold JsMap.values in Hin. apply in_map_iff in Hin.
    destruct Hin as [[k l] [<- Hin]]. apply JsMapFacts.In_deleteAll in Hin.
    destruct Hin as [Hin Hk]. simpl in *.
    assert (Hb : String.eqb (Link.fromBlockId l) B
                 || String.eqb (Link.toBlockId l) B = false).
    { destruct (_ || _) eqn:E; [|reflexivity]. exfalso. apply Hk.
      change k with (fst (k, l)). apply in_map. apply filter_In. now split. }
    apply orb_false_iff in Hb. destruct Hb as [H1 H2].
    now apply String.eqb_neq in H1, H2.
  - intros comment Hin. unfold JsMap.values in Hin. apply in_map_iff in Hin.
    destruct Hin as [[k c] [<- Hin]]. apply JsMapFacts.In_deleteAll in Hin.
    destruct Hin as [Hin Hk]. simpl in *.
    apply String.eqb_neq. destruct (String.eqb _ _) eqn:E; [|reflexivity].
    exfalso. apply Hk. change k with (fst (k, c)). apply in_map.
    apply filter_In. now split.
Qed.

(** C1 at a concrete store: deleting block A of [sampleStore]. *)
Lemma deleteBlock_cascade_witness :
  getBlock (snd (deleteBlock sampleStore "A")) "A" = None
  /\ (forall link, In link (getLinks (snd (deleteBlock sampleStore "A"))) ->
        Link.fromBlockId link <> "A" /\ Link.toBlockId link <> "A")
  /\ (forall comment,
        In comment (JsMap.values (comments (snd (deleteBlock sampleStore "A")))) ->
        Comment.blockId comment <> "A").
Proof.
  apply (deleteBlock_cascade sampleStore (snd (deleteBlock sampleStore "A")) "A").
  reflexivity.
Defined.

(** ** updateBlock *)

(** C7 (frame of a partial update).  On a stored block, [updateBlock]
    returns the block in which every field present in the update has the
    update's value and every absent field its stored value; [id] and
    [createdAt] are the stored ones and [updatedAt] is the clock reading.
    The returned block replaces the stored one under the same key and at
    the same place, every other key, the links and the comments are
    untouched.  On an absent id it returns [undefined] and the store is
    unchanged. *)
Theorem updateBlock_frame (this : MemStorage) (id : string)
  (updates : PartialInsertBlock.t) (now : Date) :
  (forall existing, getBlock this id = Some existing ->
     exists updated this',
       updateBlock this id updates now = (Some updated, this')
       /\ Block.id updated = Block.id existing
       /\ Block.createdAt updated = Block.createdAt existing
       /\ Block.updatedAt updated = now
       /\ merged (Block.title existing) (PartialInsertBlock.title updates)
                 (Block.title updated)
       /\ merged (Block.content existing) (PartialInsertBlock.content updates)
                 (Block.content updated)
       /\ merged (Block.contentType existing)
                 (PartialInsertBlock.contentType updates)
                 (Block.contentType updated)
       /\ merged (Block.position existing) (PartialInsertBlock.position updates)
                 (Block.position updated)
       /\ merged (Block.tags existing) (PartialInsertBlock.tags updates)
                 (Block.tags updated)
       /\ merged (Block.authorId existing) (PartialInsertBlock.authorId updates)
                 (Block.authorId updated)
       /\ merged (Block.authorName existing)
                 (PartialInsertBlock.authorName updates)
                 (Block.authorName updated)
       /\ getBlock this' id = Some updated
       /\ (forall id', id' <> id -> getBlock this' id' = getBlock this id')
       /\ JsMap.keys (blocks this') = JsMap.keys (blocks this)
       /\ links this' = links this
       /\ comments this' = comments this)
  /\ (getBlock this id = None -> updateBlock this id updates now = (None, this)).
Proof.
  unfold getBlock, updateBlock. split.
  - intros existing Hget. rewrite Hget. eexists. eexists.
    split; [reflexivity|]. simpl.
    repeat match goal with
           | |- merged _ ?u _ /\ _ => split; [unfold merged, spread; now destruct u|]
           | |- _ = _ /\ _ => split; [reflexivity|]
           end.
    split; [apply JsMapFacts.get_set_eq|].
    split; [intros id' Hne; apply JsMapFacts.get_set_ne; congruence|].
    split; [|split; reflexivity].
    apply JsMapFacts.keys_set_present. congruence.
  - intros Hget. now rewrite Hget.
Qed.

(** C7 at block A of [sampleStore], renamed at clock reading 9. *)
Lemma updateBlock_frame_witness :
  exists updated this',
    updateBlock sampleStore "A" sampleUpdates 9%Z = (Some updated, this')
    /\ Block.id updated = "A"
    /\ Block.createdAt updated = 1%Z
    /\ Block.updatedAt updated = 9%Z
    /\ Block.title updated = "A2"
    /\ Block.content updated = ""
    /\ getBlock this' "B" = getBlock sampleStore "B"
    /\ JsMap.keys (blocks this') = ["A"; "B"]
    /\ links this' = links sampleStore
    /\ comments this' = comments sampleStore.
Proof.
  destruct (proj1 (updateBlock_frame sampleStore "A" sampleUpdates 9%Z)
                  blockA eq_refl)
    as (updated & this' & Hupd & Hid & Hcreated & Hupdated & Htitle & Hcontent
        & _ & _ & _ & _ & _ & _ & Hother & Hkeys & Hlinks & Hcomments).
  exists updated, this'.
  repeat split; try assumption.
  apply Hother. discriminate.
Defined.

(** ** Array.prototype.sort *)

Module JsArrayFacts.
Section Sort.
Context {A : Type} (cmp : A -> A -> Z).

Lemma insert_perm (a : A) (l : list A) :
  Permutation (JsArray.insert cmp a l) (a :: l).
Proof.
  induction l as [|b l IH]; simpl; [reflexivity|].
  destruct (cmp a b <=? 0)%Z; [reflexivity|].
  rewrite IH. apply perm_swap.
Qed.

Lemma sort_perm (l : list A) : Permutation (JsArray.sort cmp l) l.
Proof.
  induction l as [|a l IH]; simpl; [reflexivity|].
  unfold JsArray.sort in *. simpl. rewrite insert_perm. now constructor.
Qed.

Lemma sort_In (l : list A) (a : A) : In a (JsArray.sort cmp l) <-> In a l.
Proof.
  split; apply Permutation_in; [|symmetry]; apply sort_perm.
Qed.

Lemma sort_length (l : list A) : length (JsArray.sort cmp l) = length l.
Proof. apply Permutation_length, sort_perm. Qed.

(** The order of the result, for a comparator that is total and
    transitive (as a difference of two numeric keys is). *)
Hypothesis cmp_total : forall a b, (0 < cmp a b)%Z -> (cmp b a <= 0)%Z.
Hypothesis cmp_trans :
  forall a b c, (cmp a b <= 0)%Z -> (cmp b c <= 0)%Z -> (cmp a c <= 0)%Z.

Lemma insert_sorted (a : A) (l : list A) :
  StronglySorted (before cmp) l ->
  StronglySorted (before cmp) (JsArray.insert cmp a l).
Proof.
  induction 1 as [|b l Hs IH Hb]; simpl.
  - repeat constructor.
  - destruct (Z.leb_spec (cmp a b) 0) as [Hle|Hgt].
    + constructor; [now constructor|]. constructor; [exact Hle|].
      eapply Forall_impl; [|exact Hb]. intros c Hc. now apply cmp_trans with b.
    + constructor; [exact IH|].
      eapply Permutation_Forall; [symmetry; apply insert_perm|].
      constructor; [now apply cmp_total | exact Hb].
Qed.

Lemma sort_sorted (l : list A) :
  StronglySorted (before cmp) (JsArray.sort cmp l).
Proof.
  induction l as [|a l IH]; [constructor|].
  unfold JsArray.sort in *. simpl. now apply insert_sorted.
Qed.

End Sort.

Lemma StronglySorted_weaken {A : Type} (R S : A -> A -> Prop) (l : list A) :
  (forall a b, R a b -> S a b) -> StronglySorted R l -> StronglySorted S l.
Proof.
  intros HRS. induction 1 as [|a l Hs IH Ha]; constructor; [exact IH|].
  eapply Forall_impl; [|exact Ha]. intros b. apply HRS.
Qed.

Lemma filter_none {A : Type} (f : A -> bool) (l : list A) :
  (forall a, In a l -> f a = false) -> filter f l = [].
Proof.
  induction l as [|a l IH]; intros H; simpl; [reflexivity|].
  rewrite (H a (or_introl eq_refl)). apply IH. intros b Hb. apply H. now right.
Qed.

Lemma filter_Boolean_length {A B : Type} (f : A -> option B) (l : list A) :
  length (JsArray.filter_Boolean (map f l))
  = length (filter (fun a => match f a with Some _ => true | None => false end) l).
Proof.
  induction l as [|a l IH]; simpl; [reflexivity|].
  destruct (f a); simpl; now rewrite IH.
Qed.

Lemma filter_Boolean_app {A : Type} (l1 l2 : list (option A)) :
  JsArray.filter_Boolean (l1 ++ l2)
  = JsArray.filter_Boolean l1 ++ JsArray.filter_Boolean l2.
Proof.
  induction l1 as [|[a|] l1 IH]; simpl; now rewrite ?IH.
Qed.

Lemma filter_Boolean_In {A : Type} (l : list (option A)) (a : A) :
  In a (JsArray.filter_Boolean l) <-> In (Some a) l.
Proof.
  induction l as [|[b|] l IH]; simpl; [tauto| |].
  - rewrite IH. intuition congruence.
  - rewrite IH. intuition congruence.
Qed.

End JsArrayFacts.

(** ** getBlocks *)

(** The store with an older block inserted before a newer one. *)
Lemma getBlocks_sample :
  map Block.id (JsMap.values (blocks sampleStore)) = ["A"; "B"]
  /\ map Block.id (getBlocks sampleStore) = ["B"; "A"].
Proof. split; reflexivity. Qed.

(** C10.  [getBlocks] returns every block of the store (the result is a
    permutation of the table's values) ordered by [updatedAt], most recent
    first; the order is not the insertion order, as the sample store
    shows. *)
Theorem getBlocks_sorted_by_updatedAt (this : MemStorage) :
  Permutation (getBlocks this) (JsMap.values (blocks this))
  /\ StronglySorted newerFirst (getBlocks this)
  /\ (exists store, getBlocks store <> JsMap.values (blocks store)).
Proof.
  unfold getBlocks. split; [apply JsArrayFacts.sort_perm|]. split.
  - eapply JsArrayFacts.StronglySorted_weaken;
      [|apply JsArrayFacts.sort_sorted; intros; lia].
    unfold before, newerFirst. intros a b. lia.
  - exists sampleStore. intros H.
    apply (f_equal (map Block.id)) in H. fold (getBlocks sampleStore) in H.
    destruct getBlocks_sample as [H1 H2]. rewrite H1, H2 in H. discriminate.
Qed.

(** ** getBlockWithLinks *)

Lemma getBlockWithLinks_Some (this : MemStorage) (B : string)
  (r : BlockWithLinks.t) :
  getBlockWithLinks this B = Some r ->
  JsMap.get B (blocks this) = Some (BlockWithLinks.block r)
  /\ BlockWithLinks.linkedTo r
     = JsArray.filter_Boolean
         (map (fun link => JsMap.get (Link.toBlockId link) (blocks this))
              (filter (fun link => String.eqb (Link.fromBlockId link) B)
                      (getLinks this)))
  /\ BlockWithLinks.linkedFrom r
     = JsArray.filter_Boolean
         (map (fun link => JsMap.get (Link.fromBlockId link) (blocks this))
              (filter (fun link => String.eqb (Link.toBlockId link) B)
                      (getLinks this)))
  /\ BlockWithLinks.linkCount r
     = length (BlockWithLinks.linkedTo r) + length (BlockWithLinks.linkedFrom r).
Proof.
  unfold getBlockWithLinks, getLinks.
  destruct (JsMap.get B (blocks this)) as [block|]; [|discriminate].
  intros H. injection H as <-. simpl. auto.
Qed.

(** Counting the links of a list once per direction counts the links that
    touch [B] once, and the self-links once more. *)
Lemma count_directions (this : MemStorage) (B : string) (l : list Link.t) :
  JsMap.has B (blocks this) = true ->
  length (filter (fun link => JsMap.has (Link.toBlockId link) (blocks this))
                 (filter (fun link => String.eqb (Link.fromBlockId link) B) l))
  + length (filter (fun link => JsMap.has (Link.fromBlockId link) (blocks this))
                   (filter (fun link => String.eqb (Link.toBlockId link) B) l))
  = length (filter (incidentResolvable this B) l)
    + length (filter (selfLink B) l).
Proof.
  intros HB. induction l as [|link l IH]; [reflexivity|].
  simpl. unfold incidentResolvable, selfLink in *.
  destruct (String.eqb_spec (Link.fromBlockId link) B) as [Ef|Ef];
    destruct (String.eqb_spec (Link.toBlockId link) B) as [Et|Et];
    simpl; rewrite ?Ef, ?Et, ?HB; simpl;
    repeat match goal with
           | |- context [JsMap.has ?k ?m] => destruct (JsMap.has k m); simpl
           end;
    lia.
Qed.

(** The POST of B -> B is accepted and leaves block B with three list
    entries ([linkCount] 3) for the two links that touch it. *)
Lemma linkCount_selfLink_counterexample :
  fst selfLinkWorld
  = Returned (mkResponse 200 (JsonLink (Link.mk "L2" "B" "B" 6%Z)))
  /\ option_map BlockWithLinks.linkCount (getBlockWithLinks selfLinkStore "B")
     = Some 3
  /\ length (filter (incidentResolvable selfLinkStore "B")
                    (getLinks selfLinkStore)) = 2.
Proof. repeat split. Qed.

(** C5, amended.  [linkCount] of [getBlockWithLinks(B)] is the number of
    links out of [B] whose destination is a block of the store plus the
    number of links into [B] whose source is one.  A link from [B] to [B]
    is counted in both, so [linkCount] is the number of links incident to
    [B] with a resolvable opposite endpoint plus the number of self-links
    on [B]; the two numbers agree when [B] has no self-link. *)
Theorem linkCount_counts_each_direction (this : MemStorage) (B : string)
  (r : BlockWithLinks.t) :
  getBlockWithLinks this B = Some r ->
  BlockWithLinks.linkCount r
  = length (filter (incidentResolvable this B) (getLinks this))
    + length (filter (selfLink B) (getLinks this))
  /\ ((forall link, In link (getLinks this) -> selfLink B link = false) ->
      BlockWithLinks.linkCount r
      = length (filter (incidentResolvable this B) (getLinks this))).
Proof.
  intros Hr. apply getBlockWithLinks_Some in Hr.
  destruct Hr as (Hget & Hto & Hfrom & Hcount).
  assert (Hsum : BlockWithLinks.linkCount r
                 = length (filter (incidentResolvable this B) (getLinks this))
                   + length (filter (selfLink B) (getLinks this))).
  { rewrite Hcount, Hto, Hfrom, !JsArrayFacts.filter_Boolean_length.
    apply count_directions. unfold JsMap.has. now rewrite Hget. }
  split; [exact Hsum|]. intros Hno. rewrite Hsum.
  rewrite (JsArrayFacts.filter_none _ _ Hno). simpl. lia.
Qed.

Lemma linkCount_counts_each_direction_witness :
  BlockWithLinks.linkCount sampleBlockB
  = length (filter (incidentResolvable sampleStore "B") (getLinks sampleStore))
    + length (filter (selfLink "B") (getLinks sampleStore))
  /\ ((forall link, In link (getLinks sampleStore) -> selfLink "B" link = false) ->
      BlockWithLinks.linkCount sampleBlockB
      = length (filter (incidentResolvable sampleStore "B") (getLinks sampleStore))).
Proof.
  apply (linkCount_counts_each_direction sampleStore "B" sampleBlockB).
  reflexivity.
Defined.

(** C9.  A link from [B] to [B] puts block [B] in both [linkedTo] and
    [linkedFrom] of [getBlockWithLinks(B)]; creating such a link (under a
    fresh link id) appends [B] to both lists and raises [linkCount] by 2,
    although the link table grew by one link. *)
Theorem selfLink_counted_twice (this : MemStorage) (B : string)
  (r : BlockWithLinks.t) :
  getBlockWithLinks this B = Some r ->
  (forall link, In link (getLinks this) ->
     Link.fromBlockId link = B -> Link.toBlockId link = B ->
     In (BlockWithLinks.block r) (BlockWithLinks.linkedTo r)
     /\ In (BlockWithLinks.block r) (BlockWithLinks.linkedFrom r))
  /\ (forall id now, JsMap.get id (links this) = None ->
      exists r',
        getBlockWithLinks (snd (createLink this (InsertLink.mk B B) id now)) B
        = Some r'
        /\ length (getLinks (snd (createLink this (InsertLink.mk B B) id now)))
           = length (getLinks this) + 1
        /\ BlockWithLinks.linkedTo r'
           = BlockWithLinks.linkedTo r ++ [BlockWithLinks.block r]
        /\ BlockWithLinks.linkedFrom r'
           = BlockWithLinks.linkedFrom r ++ [BlockWithLinks.block r]
        /\ BlockWithLinks.linkCount r' = BlockWithLinks.linkCount r + 2).
Proof.
  intros Hr. apply getBlockWithLinks_Some in Hr.
  destruct Hr as (Hget & Hto & Hfrom & Hcount). split.
  - intros link Hin Ef Et. rewrite Hto, Hfrom.
    rewrite !JsArrayFacts.filter_Boolean_In, !in_map_iff.
    split; exists link; rewrite filter_In, ?Ef, ?Et, String.eqb_refl; auto.
  - intros id now Hfresh.
    destruct (getBlockWithLinks (snd (createLink this (InsertLink.mk B B) id now)) B)
      as [r'|] eqn:Hr'.
    + exists r'. apply getBlockWithLinks_Some in Hr'.
      destruct Hr' as (Hget' & Hto' & Hfrom' & Hcount').
      assert (Hlinks : getLinks (snd (createLink this (InsertLink.mk B B) id now))
                       = getLinks this ++ [Link.mk id B B now]).
      { unfold getLinks, JsMap.values. simpl.
        rewrite (JsMapFacts.set_fresh _ _ _ Hfresh), map_app. reflexivity. }
      rewrite Hlinks in Hto', Hfrom'. simpl blocks in Hto', Hfrom'.
      rewrite !filter_app, !map_app, !JsArrayFacts.filter_Boolean_app
        in Hto', Hfrom'.
      simpl in Hto', Hfrom'. rewrite String.eqb_refl in Hto', Hfrom'.
      simpl in Hto', Hfrom'. rewrite Hget in Hto', Hfrom'.
      simpl in Hto', Hfrom'. rewrite <- Hto in Hto'. rewrite <- Hfrom in Hfrom'.
      split; [reflexivity|]. split; [rewrite Hlinks, length_app; reflexivity|].
      split; [exact Hto'|]. split; [exact Hfrom'|].
      rewrite Hcount', Hcount, Hto', Hfrom', !length_app. simpl. lia.
    + exfalso. unfold getBlockWithLinks in Hr'. simpl blocks in Hr'.
      rewrite Hget in Hr'. discriminate.
Qed.

Lemma selfLink_counted_twice_witness :
  (forall link, In link (getLinks selfLinkStore) ->
     Link.fromBlockId link = "B" -> Link.toBlockId link = "B" ->
     In blockB (BlockWithLinks.linkedTo selfLinkBlockB)
     /\ In blockB (BlockWithLinks.linkedFrom selfLinkBlockB))
  /\ (forall id now, JsMap.get id (links selfLinkStore) = None ->
      exists r',
        getBlockWithLinks
          (snd (createLink selfLinkStore (InsertLink.mk "B" "B") id now)) "B"
        = Some r'
        /\ length (getLinks (snd (createLink selfLinkStore
                                             (InsertLink.mk "B" "B") id now)))
           = length (getLinks selfLinkStore) + 1
        /\ BlockWithLinks.linkedTo r' = [blockB] ++ [blockB]
        /\ BlockWithLinks.linkedFrom r' = [blockA; blockB] ++ [blockB]
        /\ BlockWithLinks.linkCount r' = 3 + 2).
Proof.
  apply (selfLink_counted_twice selfLinkStore "B" selfLinkBlockB). reflexivity.
Defined.

(** ** Block timestamps *)

Lemma values_set_In {V : Type} (m : JsMap.t V) (k : string) (v v' : V) :
  In v' (JsMap.values (JsMap.set k v m)) -> v' = v \/ In v' (JsMap.values m).
Proof.
  unfold JsMap.values. induction m as [|[k0 v0] m IH]; simpl.
  - intuition.
  - destruct (String.eqb k k0); simpl; intuition.
Qed.

Lemma values_remove_In {V : Type} (m : JsMap.t V) (k : string) (v : V) :
  In v (JsMap.values (JsMap.remove k m)) -> In v (JsMap.values m).
Proof.
  unfold JsMap.values. rewrite !in_map_iff. intros [e [E Hin]].
  apply JsMapFacts.In_remove in Hin. exists e. tauto.
Qed.

Lemma applyOp_blockTimes (this : MemStorage) (t now : Date) (op : StoreOp) :
  (t <= now)%Z -> blockTimesUpTo t this ->
  blockTimesUpTo now (applyOp this (now, op)).
Proof.
  intros Ht Hinv.
  assert (Hold : forall block, In block (JsMap.values (blocks this)) ->
                   (Block.createdAt block <= Block.updatedAt block)%Z
                   /\ (Block.createdAt block <= now)%Z).
  { intros block Hin. destruct (Hinv block Hin). split; lia. }
  destruct op; simpl; intros block Hin.
  - apply values_set_In in Hin. destruct Hin as [->|Hin]; [simpl; lia|auto].
  - unfold updateBlock in Hin.
    destruct (JsMap.get id (blocks this)) as [existing|] eqn:Hget;
      simpl in Hin; [|auto].
    apply values_set_In in Hin. destruct Hin as [->|Hin]; [|auto]. simpl.
    apply JsMapFacts.get_In in Hget.
    assert (Hex : In existing (JsMap.values (blocks this))).
    { unfold JsMap.values. change existing with (snd (id, existing)).
      now apply in_map. }
    destruct (Hinv existing Hex). lia.
  - unfold deleteBlock, JsMap.delete in Hin.
    destruct (JsMap.has id (blocks this)); simpl in Hin;
      apply values_remove_In in Hin; auto.
  - auto.
  - auto.
  - auto.
  - auto.
Qed.

Lemma run_blockTimes (calls : list (Date * StoreOp)) :
  forall (this : MemStorage) (t : Date),
    blockTimesUpTo t this -> StronglySorted Z.le (t :: map fst calls) ->
    exists t', blockTimesUpTo t' (run calls this).
Proof.
  unfold run. induction calls as [|[now op] calls IH]; intros this t Hinv Hs.
  - now exists t.
  - simpl. inversion Hs as [|? ? Hs' Hall]; subst. simpl in *.
    apply (IH _ now).
    + apply applyOp_blockTimes with t; [|exact Hinv].
      now inversion Hall.
    + exact Hs'.
Qed.

(** With the clock set back between [createBlock] and [updateBlock], the
    stored block has [updatedAt] 0 before [createdAt] 2. *)
Lemma clock_set_back_counterexample :
  option_map Block.createdAt (getBlock (run backwardsCalls newMemStorage) "A")
  = Some 2%Z
  /\ option_map Block.updatedAt (getBlock (run backwardsCalls newMemStorage) "A")
     = Some 0%Z.
Proof. split; reflexivity. Qed.

(** C8, amended.  With a clock that does not run backwards from one call
    to the next, every block of every store reached from the empty one by
    calls of the mutating methods has [createdAt <= updatedAt], and every
    mutating method keeps it so at its own clock reading.  [createBlock]
    stores, under the new id, a block with both timestamps equal to the
    clock reading; [updateBlock] stores, under the same id, the block with
    [updatedAt] equal to the clock reading and [createdAt] as it was. *)
Theorem updatedAt_ge_createdAt (calls : list (Date * StoreOp)) :
  clockMonotone calls ->
  blockTimesOk (run calls newMemStorage)
  /\ (forall this t now op,
        (t <= now)%Z -> blockTimesUpTo t this ->
        blockTimesUpTo now (applyOp this (now, op)))
  /\ (forall this insertBlock id now,
        exists block,
          createBlock this insertBlock id now
          = (block, mkMemStorage (JsMap.set id block (blocks this))
                                 (links this) (comments this))
          /\ getBlock (snd (createBlock this insertBlock id now)) id = Some block
          /\ Block.createdAt block = now
          /\ Block.updatedAt block = now)
  /\ (forall this id updates now existing,
        getBlock this id = Some existing ->
        exists updated,
          updateBlock this id updates now
          = (Some updated, mkMemStorage (JsMap.set id updated (blocks this))
                                        (links this) (comments this))
          /\ getBlock (snd (updateBlock this id updates now)) id = Some updated
          /\ Block.createdAt updated = Block.createdAt existing
          /\ Block.updatedAt updated = now).
Proof.
  intros Hmono. split; [|split; [|split]].
  - destruct calls as [|[t0 op] calls'] eqn:Hcalls.
    + intros block [].
    + rewrite <- Hcalls in *.
      destruct (run_blockTimes calls newMemStorage t0) as [t' Ht'].
      * intros block [].
      * apply Sorted_StronglySorted in Hmono; [|intros a b c; apply Z.le_trans].
        constructor; [exact Hmono|].
        rewrite Hcalls in *. simpl in *. constructor; [lia|].
        now inversion Hmono.
      * intros block Hin. now destruct (Ht' block Hin).
  - intros this t now op. apply applyOp_blockTimes.
  - intros this insertBlock id now. eexists.
    split; [reflexivity|]. unfold getBlock. simpl.
    split; [apply JsMapFacts.get_set_eq|]. split; reflexivity.
  - intros this id updates now existing Hget. unfold getBlock in *.
    unfold updateBlock. rewrite Hget. eexists.
    split; [reflexivity|]. simpl.
    split; [apply JsMapFacts.get_set_eq|]. split; reflexivity.
Qed.

Lemma updatedAt_ge_createdAt_witness :
  blockTimesOk (run sampleCallsWithUpdate newMemStorage)
  /\ (forall this t now op,
        (t <= now)%Z -> blockTimesUpTo t this ->
        blockTimesUpTo now (applyOp this (now, op)))
  /\ (forall this insertBlock id now,
        exists block,
          createBlock this insertBlock id now
          = (block, mkMemStorage (JsMap.set id block (blocks this))
                                 (links this) (comments this))
          /\ getBlock (snd (createBlock this insertBlock id now)) id = Some block
          /\ Block.createdAt block = now
          /\ Block.updatedAt block = now)
  /\ (forall this id updates now existing,
        getBlock this id = Some existing ->
        exists updated,
          updateBlock this id updates now
          = (Some updated, mkMemStorage (JsMap.set id updated (blocks this))
                                        (links this) (comments this))
          /\ getBlock (snd (updateBlock this id updates now)) id = Some updated
          /\ Block.createdAt updated = Block.createdAt existing
          /\ Block.updatedAt updated = now).
Proof.
  apply (updatedAt_ge_createdAt sampleCallsWithUpdate).
  unfold clockMonotone. simpl. repeat constructor; lia.
Defined.

(** ** Fan-out channel *)

Lemma logged_nil (w : World) : logged w [] = w.
Proof. destruct w. unfold logged. simpl. now rewrite app_nil_r. Qed.

Lemma logged_logged (w : World) (es es' : list Effect) :
  logged (logged w es) es' = logged w (es ++ es').
Proof. unfold logged. simpl. now rewrite app_assoc. Qed.

(** The loop over connections whose sends all go through. *)
Lemma forEach_delivers (data : string) (cs : list WebSocket) (w : World) :
  sendsGoThrough cs ->
  forEach (sendIfOpen data) cs w = (Returned tt, logged w (deliveries data cs)).
Proof.
  revert w. induction cs as [|c cs IH]; intros w Hok.
  - simpl. unfold ret. now rewrite logged_nil.
  - simpl. unfold bind, sendIfOpen at 1, deliveries. simpl.
    assert (Hcs : sendsGoThrough cs) by (intros c' Hin; apply Hok; now right).
    destruct (isOpen c) eqn:Hopen.
    + unfold send. rewrite (Hok c (or_introl eq_refl) Hopen).
      unfold logEffect. fold (logged w [CallSend (ws c) data]).
      rewrite IH by exact Hcs. now rewrite logged_logged.
    + unfold ret. now rewrite IH by exact Hcs.
Qed.

(** The loop stops at the first ready connection whose send throws. *)
Lemma forEach_stops (data : string) (before after : list WebSocket)
  (c : WebSocket) (w : World) :
  sendsGoThrough before -> isOpen c = true -> sendThrows c = true ->
  forEach (sendIfOpen data) (before ++ c :: after) w
  = (Thrown, logged w (deliveries data before ++ [CallSendThrew (ws c) data])).
Proof.
  revert w. induction before as [|b before IH]; intros w Hok Hopen Hthrows.
  - simpl. unfold bind, sendIfOpen, send. rewrite Hopen, Hthrows.
    reflexivity.
  - simpl. unfold bind, sendIfOpen at 1, deliveries. simpl.
    assert (Hb : sendsGoThrough before) by (intros c' Hin; apply Hok; now right).
    destruct (isOpen b) eqn:Hbo.
    + unfold send. rewrite (Hok b (or_introl eq_refl) Hbo).
      unfold logEffect. fold (logged w [CallSend (ws b) data]).
      rewrite IH by assumption. now rewrite logged_logged.
    + unfold ret. now rewrite IH by assumption.
Qed.

(** A connection is in the registry from its [connection] event to its
    [close] or [error] event. *)
Lemma onConnection_registered (c : WebSocket) (w : World) :
  existsb (sameSocket c) (clients (onConnection c w)) = true.
Proof.
  unfold onConnection, setAdd. simpl.
  destruct (existsb (sameSocket c) (clients w)) eqn:E; [exact E|].
  rewrite existsb_app. simpl. unfold sameSocket at 2.
  rewrite Nat.eqb_refl. apply orb_true_r.
Qed.

Lemma onClose_unregistered (c : WebSocket) (w : World) :
  existsb (sameSocket c) (clients (onClose c w)) = false
  /\ existsb (sameSocket c) (clients (onError c w)) = false.
Proof.
  assert (H : existsb (sameSocket c) (setDelete c (clients w)) = false).
  { unfold setDelete. induction (clients w) as [|c' l IH]; [reflexivity|].
    simpl. destruct (sameSocket c c') eqn:E; simpl; [exact IH|].
    now rewrite E, IH. }
  split; exact H.
Qed.

(** C6, amended.  When no send to a ready connection throws,
    [broadcastToClients] calls [JSON.stringify] once and then sends that one string to every
    connection of the registry whose [readyState] is [OPEN], in registry
    order; a connection in another state gets no call at all, and nothing
    else in the world changes (no queue, no retry, the registry and the
    storage as before). *)
Theorem broadcast_fanout (JSON_stringify : Message -> string)
  (message : Message) (w : World) :
  sendsGoThrough (clients w) ->
  broadcastToClients JSON_stringify message w
  = (Returned tt,
     logged w (CallStringify message
               :: deliveries (JSON_stringify message) (clients w))).
Proof.
  intros Hok. unfold broadcastToClients, stringify, bind, logEffect, ret.
  fold (logged w [CallStringify message]).
  change (clients (logged w [CallStringify message])) with (clients w).
  rewrite forEach_delivers by exact Hok. now rewrite logged_logged.
Qed.

Lemma broadcast_fanout_witness :
  broadcastToClients sampleStringify sampleMessage healthyWorld
  = (Returned tt,
     logged healthyWorld
            [CallStringify sampleMessage;
             CallSend 2 "block_created"; CallSend 4 "block_created"]).
Proof.
  apply (broadcast_fanout sampleStringify sampleMessage healthyWorld).
  intros client Hin _. simpl in Hin.
  destruct Hin as [<-|[<-|[<-|[]]]]; reflexivity.
Defined.

(** A registered connection that is ready, and whose own send would go
    through, is sent nothing when the send to the connection before it
    throws. *)
Lemma broadcast_fanout_counterexample :
  clients brokenFirstWorld = [brokenClient; readyClient]
  /\ isOpen readyClient = true
  /\ sendThrows readyClient = false
  /\ trace (snd (broadcastToClients sampleStringify sampleMessage
                                    brokenFirstWorld))
     = [CallStringify sampleMessage; CallSendThrew 1 "block_created"]
  /\ filter (isSendTo (ws readyClient))
            (trace (snd (broadcastToClients sampleStringify sampleMessage
                                            brokenFirstWorld)))
     = [].
Proof. repeat split. Qed.

(** With a first connection whose send throws, the broadcast throws and
    the second connection, ready and registered, is sent nothing; the
    POST that triggered the broadcast answers 400 although the link was
    created. *)
Lemma broadcast_throw_counterexample :
  clients brokenFirstWorld = [brokenClient; readyClient]
  /\ broadcastToClients sampleStringify sampleMessage brokenFirstWorld
     = (Thrown,
        logged brokenFirstWorld
               [CallStringify sampleMessage; CallSendThrew 1 "block_created"])
  /\ fst (postApiLinks sampleStringify (Some (InsertLink.mk "B" "A")) "L2" 6%Z
                       (mkWorld newMemStorage [brokenClient; readyClient] []))
     = Returned (mkResponse 400 (JsonMessage "Invalid link data"))
  /\ getLinks (storage (snd (postApiLinks sampleStringify
                               (Some (InsertLink.mk "B" "A")) "L2" 6%Z
                               (mkWorld newMemStorage
                                        [brokenClient; readyClient] []))))
     = [Link.mk "L2" "B" "A" 6%Z].
Proof. repeat split. Qed.

(** C3, amended.  The sends of a broadcast are not guarded one by one:
    when the send to a ready connection throws, the exception leaves
    [broadcastToClients].  The ready connections before it in registry
    order have been sent the event; the one that threw and every
    connection after it are sent nothing. *)
Theorem broadcast_stops_at_throw (JSON_stringify : Message -> string)
  (message : Message) (w : World) (before after : list WebSocket)
  (c : WebSocket) :
  clients w = before ++ c :: after ->
  sendsGoThrough before -> isOpen c = true -> sendThrows c = true ->
  broadcastToClients JSON_stringify message w
  = (Thrown,
     logged w (CallStringify message
               :: deliveries (JSON_stringify message) before
               ++ [CallSendThrew (ws c) (JSON_stringify message)])).
Proof.
  intros Hcs Hok Hopen Hthrows.
  unfold broadcastToClients, stringify, bind, logEffect, ret.
  fold (logged w [CallStringify message]).
  change (clients (logged w [CallStringify message])) with (clients w).
  rewrite Hcs, forEach_stops by assumption. now rewrite logged_logged.
Qed.

Lemma broadcast_stops_at_throw_witness :
  broadcastToClients sampleStringify sampleMessage
    (mkWorld sampleStore [readyClient; closingClient; brokenClient; readyClient] [])
  = (Thrown,
     logged (mkWorld sampleStore
                     [readyClient; closingClient; brokenClient; readyClient] [])
            (CallStringify sampleMessage
             :: deliveries "block_created" [readyClient; closingClient]
             ++ [CallSendThrew 1 "block_created"])).
Proof.
  apply (broadcast_stops_at_throw sampleStringify sampleMessage
           (mkWorld sampleStore
                    [readyClient; closingClient; brokenClient; readyClient] [])
           [readyClient; closingClient] [readyClient] brokenClient).
  - reflexivity.
  - intros client Hin _. simpl in Hin. destruct Hin as [<-|[<-|[]]]; reflexivity.
  - reflexivity.
  - reflexivity.
Defined.

(** ** POST /api/links *)

(** C2.  When the link table holds a link that joins [A] and [B] in
    either direction, a POST for a link that joins [A] and [B] in either
    direction is answered with status 400 and the message "Link already
    exists" (the conflict answer of the route); the only call it makes is
    [getLinksBetween], so [createLink] is not called, nothing is
    broadcast, and the storage, with its link table, is as before. *)
Theorem duplicate_link_rejected (JSON_stringify : Message -> string)
  (w : World) (A B : string) (existing : Link.t)
  (validatedLink : InsertLink.t) (id : string) (now : Date) :
  In existing (getLinks (storage w)) ->
  joins A B (Link.fromBlockId existing) (Link.toBlockId existing) ->
  joins A B (InsertLink.fromBlockId validatedLink)
            (InsertLink.toBlockId validatedLink) ->
  postApiLinks JSON_stringify (Some validatedLink) id now w
  = (Returned (mkResponse 400 (JsonMessage "Link already exists")),
     logged w [CallGetLinksBetween (InsertLink.fromBlockId validatedLink)
                                   (InsertLink.toBlockId validatedLink)]).
Proof.
  intros Hin Hex Hreq.
  unfold postApiLinks, tryCatch, parse, bind, ret, storage_getLinksBetween,
    logEffect. simpl.
  set (found := getLinksBetween _ _ _).
  assert (Hfound : In existing found).
  { unfold found, getLinksBetween. apply filter_In. split; [exact Hin|].
    destruct Hex as [[-> ->]|[-> ->]], Hreq as [[-> ->]|[-> ->]];
      rewrite !String.eqb_refl; simpl; auto using orb_true_r. }
  destruct found as [|l found']; [destruct Hfound|]. reflexivity.
Qed.

Lemma duplicate_link_rejected_witness :
  postApiLinks sampleStringify (Some (InsertLink.mk "B" "A")) "L2" 6%Z
               healthyWorld
  = (Returned (mkResponse 400 (JsonMessage "Link already exists")),
     logged healthyWorld [CallGetLinksBetween "B" "A"]).
Proof.
  apply (duplicate_link_rejected sampleStringify healthyWorld "A" "B"
           (Link.mk "L1" "A" "B" 3%Z) (InsertLink.mk "B" "A") "L2" 6%Z).
  - simpl. left. reflexivity.
  - left. split; reflexivity.
  - right. split; reflexivity.
Defined.

(** ** getCommentsForBlock *)

(** *** The two loops *)

Lemma initCommentMap_get (cs : list Comment.t) :
  forall m0 : JsMap.t CommentNode,
    NoDup (map Comment.id cs) ->
    (forall c, In c cs ->
       JsMap.get (Comment.id c)
         (fold_left (fun commentMap comment =>
                       JsMap.set (Comment.id comment)
                                 (mkCommentNode comment []) commentMap) cs m0)
       = Some (mkCommentNode c []))
    /\ (forall k, ~ In k (map Comment.id cs) ->
          JsMap.get k
            (fold_left (fun commentMap comment =>
                          JsMap.set (Comment.id comment)
                                    (mkCommentNode comment []) commentMap) cs m0)
          = JsMap.get k m0).
Proof.
  induction cs as [|c cs IH]; intros m0 Hnd; simpl.
  - split; [intros c []|reflexivity].
  - inversion Hnd as [|? ? Hc Hnd']; subst.
    destruct (IH (JsMap.set (Comment.id c) (mkCommentNode c []) m0) Hnd')
      as [IH1 IH2].
    split.
    + intros c' [<-|Hin]; [|now apply IH1].
      rewrite IH2 by exact Hc. apply JsMapFacts.get_set_eq.
    + intros k Hk. rewrite IH2 by tauto.
      apply JsMapFacts.get_set_ne. tauto.
Qed.

Lemma initCommentMap_state (cs : list Comment.t) :
  NoDup (map Comment.id cs) -> forestState cs [] (initCommentMap cs, []).
Proof.
  intros Hnd. destruct (initCommentMap_get cs JsMap.empty Hnd) as [H1 H2].
  unfold forestState, initCommentMap. simpl. repeat split.
  - intros c Hin. now apply H1.
  - intros k Hk. now rewrite (H2 k Hk).
Qed.

Lemma childrenOf_snoc (done : list Comment.t) (c : Comment.t) (p : string) :
  childrenOf (done ++ [c]) p
  = childrenOf done p ++ (if isChildOf p c then [c] else []).
Proof. unfold childrenOf. rewrite filter_app. reflexivity. Qed.

Lemma linkComment_state (cs done : list Comment.t) (c : Comment.t)
  (st : JsMap.t CommentNode * list string) :
  forestState cs done st -> forestState cs (done ++ [c]) (linkComment st c).
Proof.
  destruct st as [m roots]. intros (Hroots & Hnodes & Hnone). simpl in *.
  unfold linkComment, forestState, rootsOf.
  rewrite filter_app. simpl. unfold isRoot. fold (parentRef c).
  destruct (parentRef c) as [pid|] eqn:Hp.
  - assert (Hkids : forall q, q <> pid ->
                      childrenOf (done ++ [c]) q = childrenOf done q).
    { intros q Hq. rewrite childrenOf_snoc. unfold isChildOf. rewrite Hp.
      destruct (String.eqb_spec pid q); [congruence|apply app_nil_r]. }
    destruct (JsMap.get pid m) as [parent|] eqn:Hget; simpl.
    + rewrite app_nil_r. split; [exact Hroots|]. split.
      * intros c' Hin. destruct (String.eqb_spec pid (Comment.id c')) as [E|E].
        -- subst pid. rewrite JsMapFacts.get_set_eq.
           rewrite (Hnodes c' Hin) in Hget. injection Hget as <-. simpl.
           rewrite childrenOf_snoc. unfold isChildOf. rewrite Hp.
           rewrite String.eqb_refl, map_app. reflexivity.
        -- rewrite JsMapFacts.get_set_ne by exact E.
           rewrite Hkids by congruence. now apply Hnodes.
      * intros k Hk. destruct (String.eqb_spec pid k) as [E|E].
        -- subst k. rewrite (Hnone pid Hk) in Hget. discriminate.
        -- rewrite JsMapFacts.get_set_ne by exact E. now apply Hnone.
    + rewrite app_nil_r. split; [exact Hroots|]. split; [|exact Hnone].
      intros c' Hin. rewrite Hkids; [now apply Hnodes|].
      intros E. rewrite <- E, (Hnodes c' Hin) in Hget. discriminate.
  - simpl. split; [now rewrite map_app, Hroots|]. split; [|exact Hnone].
    intros c' Hin. rewrite childrenOf_snoc. unfold isChildOf. rewrite Hp.
    rewrite app_nil_r. now apply Hnodes.
Qed.

Lemma fold_linkComment_state (cs rest : list Comment.t) :
  forall (done : list Comment.t) (st : JsMap.t CommentNode * list string),
    forestState cs done st ->
    forestState cs (done ++ rest) (fold_left linkComment rest st).
Proof.
  induction rest as [|c rest IH]; intros done st Hst; simpl.
  - now rewrite app_nil_r.
  - replace (done ++ c :: rest) with ((done ++ [c]) ++ rest)
      by (rewrite <- app_assoc; reflexivity).
    apply IH. now apply linkComment_state.
Qed.

(** When both loops have ended, [rootComments] refers to the comments
    without parent and the node of each comment holds references to the
    comments that name it as parent, both in the order of
    [blockComments]. *)
Lemma commentForest_state (cs : list Comment.t) :
  NoDup (map Comment.id cs) -> forestState cs cs (commentForest cs).
Proof.
  intros Hnd. unfold commentForest.
  apply (fold_linkComment_state cs cs [] _ (initCommentMap_state cs Hnd)).
Qed.

(** *** Reading the result through the references *)

Lemma sequence_cons {A : Type} (o : option A) (l : list (option A)) :
  sequence (o :: l)
  = match o, sequence l with
    | Some a, Some r => Some (a :: r)
    | _, _ => None
    end.
Proof. reflexivity. Qed.

Lemma sequence_app {A : Type} (l1 l2 : list (option A)) :
  sequence (l1 ++ l2)
  = match sequence l1, sequence l2 with
    | Some r1, Some r2 => Some (r1 ++ r2)
    | _, _ => None
    end.
Proof.
  induction l1 as [|o l1 IH].
  - simpl. now destruct (sequence l2).
  - rewrite <- app_comm_cons, !sequence_cons, IH.
    destruct o, (sequence l1), (sequence l2); reflexivity.
Qed.

Lemma sequence_Forall2 {A B : Type} (g : A -> option B) (l : list A)
  (ts : list B) :
  sequence (map g l) = Some ts <-> Forall2 (fun a t => g a = Some t) l ts.
Proof.
  revert ts. induction l as [|a l IH]; intros ts.
  - simpl. split.
    + intros H. injection H as <-. constructor.
    + intros H. inversion H. reflexivity.
  - rewrite map_cons, sequence_cons. split.
    + destruct (g a) as [t|] eqn:Ha; [|discriminate].
      destruct (sequence (map g l)) as [r|] eqn:Hr; [|discriminate].
      intros H. injection H as <-. constructor; [exact Ha|]. now apply IH.
    + intros H. inversion H as [|? t ? r Ha Hr]; subst.
      apply IH in Hr. now rewrite Ha, Hr.
Qed.

Lemma deref_build (cs : list Comment.t) (st : JsMap.t CommentNode * list string) :
  forestState cs cs st ->
  forall (fuel : nat) (c : Comment.t),
    In c cs -> deref fuel (fst st) (Comment.id c) = build fuel cs c.
Proof.
  intros (_ & Hnodes & _). induction fuel as [|fuel IH]; intros c Hin.
  - reflexivity.
  - simpl. rewrite (Hnodes c Hin). simpl. rewrite map_map.
    rewrite (map_ext_in _ (build fuel cs)); [reflexivity|].
    intros c' Hc'. apply IH. unfold childrenOf in Hc'.
    now apply filter_In in Hc'.
Qed.

(** The result of the method as a function of the block's comments. *)
Lemma getCommentsForBlock_build (this : MemStorage) (blockId : string) :
  NoDup (map Comment.id (blockCommentsOf this blockId)) ->
  getCommentsForBlock this blockId
  = sequence (map (build (S (length (blockCommentsOf this blockId)))
                         (blockCommentsOf this blockId))
                  (rootsOf (blockCommentsOf this blockId))).
Proof.
  intros Hnd. unfold getCommentsForBlock.
  set (cs := blockCommentsOf this blockId) in *.
  pose proof (commentForest_state cs Hnd) as Hst.
  destruct (commentForest cs) as [m roots].
  pose proof (deref_build cs (m, roots) Hst) as Hderef.
  destruct Hst as (Hroots & _ & _). cbn [fst snd] in *. subst roots.
  rewrite map_map. f_equal. apply map_ext_in. intros c Hc.
  apply Hderef. unfold rootsOf in Hc. now apply filter_In in Hc.
Qed.

(** *** Trees over a list of comments with pairwise distinct ids *)

Section Threads.

Variable cs : list Comment.t.
Hypothesis ids_unique : NoDup (map Comment.id cs).

Lemma id_inj (a b : Comment.t) :
  In a cs -> In b cs -> Comment.id a = Comment.id b -> a = b.
Proof.
  clear -ids_unique. induction cs as [|c l IH]; [intros []|].
  simpl in ids_unique. inversion ids_unique as [|? ? Hc Hl]; subst.
  intros [->|Ha] [->|Hb] E; auto.
  - exfalso. apply Hc. rewrite E. now apply in_map.
  - exfalso. apply Hc. rewrite <- E. now apply in_map.
Qed.

Lemma comments_NoDup : NoDup cs.
Proof. exact (NoDup_map_inv _ _ ids_unique). Qed.

Lemma In_childrenOf (p : string) (c : Comment.t) :
  In c (childrenOf cs p) <-> In c cs /\ parentRef c = Some p.
Proof.
  unfold childrenOf, isChildOf. rewrite filter_In.
  destruct (parentRef c) as [q|]; [|intuition discriminate].
  destruct (String.eqb_spec q p); intuition congruence.
Qed.

Lemma In_rootsOf (c : Comment.t) :
  In c (rootsOf cs) <-> In c cs /\ parentRef c = None.
Proof.
  unfold rootsOf, isRoot. rewrite filter_In.
  destruct (parentRef c); intuition discriminate.
Qed.

Lemma In_kids (X : list Comment.t) (c : Comment.t) :
  In c (kids cs X)
  <-> exists p, In p X /\ In c cs /\ parentRef c = Some (Comment.id p).
Proof.
  unfold kids. rewrite in_flat_map. split; intros [p [Hp Hc]]; exists p.
  - now apply In_childrenOf in Hc.
  - split; [exact Hp|]. now apply In_childrenOf.
Qed.

Lemma kids_NoDup (X : list Comment.t) :
  NoDup X -> incl X cs -> NoDup (kids cs X).
Proof.
  induction X as [|x X IH]; intros Hnd Hincl; simpl; [constructor|].
  inversion Hnd as [|? ? Hx HX]; subst.
  apply NoDup_app.
  - apply NoDup_filter, comments_NoDup.
  - apply IH; [exact HX|]. intros a Ha. apply Hincl. now right.
  - intros c Hc Hc'. apply In_childrenOf in Hc. apply In_kids in Hc'.
    destruct Hc as [_ Hp], Hc' as (p & Hp' & _ & Hpp). apply Hx.
    replace x with p; [exact Hp'|].
    apply id_inj; [apply Hincl; now right | apply Hincl; now left | congruence].
Qed.

Lemma generation_nil (k : nat) : generation cs k [] = [].
Proof. induction k; simpl; auto. Qed.

Lemma generation_S (k : nat) (X : list Comment.t) :
  generation cs (S k) X = kids cs (generation cs k X).
Proof.
  revert X. induction k as [|k IH]; intros X; [reflexivity|].
  change (generation cs (S (S k)) X) with (generation cs (S k) (kids cs X)).
  now rewrite IH.
Qed.

Lemma generation_in_generations (n k : nat) (X : list Comment.t) :
  k < n -> incl (generation cs k X) (generations cs n X).
Proof.
  revert k X. induction n as [|n IH]; intros k X Hk; [lia|].
  destruct k as [|k]; simpl.
  - intros a Ha. apply in_or_app. now left.
  - intros a Ha. apply in_or_app. right. apply (IH k); [lia|exact Ha].
Qed.

Lemma generations_length (k : nat) (X : list Comment.t) :
  generation cs k X <> [] -> S k <= length (generations cs (S k) X).
Proof.
  revert X. induction k as [|k IH]; intros X Hne.
  - simpl in *. rewrite app_nil_r. destruct X; [congruence|simpl; lia].
  - change (generations cs (S (S k)) X)
      with (X ++ generations cs (S k) (kids cs X)).
    rewrite length_app. specialize (IH (kids cs X) Hne).
    destruct X as [|x X];
      [|change (length (x :: X)) with (S (length X)); lia].
    exfalso. apply Hne. simpl. apply generation_nil.
Qed.

(** **** Depth *)

Lemma atDepth_unique (j : nat) :
  forall (k : nat) (c : Comment.t), atDepth cs j c -> atDepth cs k c -> j = k.
Proof.
  induction j as [|j IH]; intros [|k] c Hj Hk; simpl in *.
  - reflexivity.
  - destruct Hk as (p & _ & Hp & _). congruence.
  - destruct Hj as (p & _ & Hp & _). congruence.
  - destruct Hj as (p & Hin & Hp & Hd), Hk as (p' & Hin' & Hp' & Hd').
    f_equal. apply (IH k p); [exact Hd|].
    replace p with p'; [exact Hd'|]. apply id_inj; congruence.
Qed.

Lemma attached_atDepth (c : Comment.t) :
  attached cs c <-> In c cs /\ exists k, atDepth cs k c.
Proof.
  split.
  - induction 1 as [c Hin Hp|c p Hin Hpin Hp _ [_ [k Hk]]].
    + split; [exact Hin|]. now exists 0.
    + split; [exact Hin|]. exists (S k). simpl. now exists p.
  - intros [Hin [k Hk]]. revert c Hin Hk.
    induction k as [|k IH]; intros c Hin Hk; simpl in Hk.
    + now apply attached_root.
    + destruct Hk as (p & Hpin & Hp & Hd).
      apply attached_reply with p; auto.
Qed.

Lemma atDepth_generation (k : nat) :
  forall c, In c cs -> atDepth cs k c -> In c (generation cs k (rootsOf cs)).
Proof.
  induction k as [|k IH]; intros c Hin Hk.
  - simpl in *. now apply In_rootsOf.
  - rewrite generation_S. destruct Hk as (p & Hpin & Hp & Hd).
    apply In_kids. exists p. auto.
Qed.

Lemma generations_spec (n : nat) :
  forall (d : nat) (X : list Comment.t),
    NoDup X -> (forall x, In x X -> In x cs /\ atDepth cs d x) ->
    NoDup (generations cs n X)
    /\ (forall a, In a (generations cs n X) ->
          In a cs /\ exists k, d <= k /\ atDepth cs k a).
Proof.
  induction n as [|n IH]; intros d X Hnd HX; simpl.
  - split; [constructor|intros a []].
  - assert (Hkids : forall x, In x (kids cs X) -> In x cs /\ atDepth cs (S d) x).
    { intros x Hx. apply In_kids in Hx. destruct Hx as (p & Hp & Hin & Hpar).
      split; [exact Hin|]. simpl. exists p. destruct (HX p Hp). auto. }
    assert (HndK : NoDup (kids cs X)).
    { apply kids_NoDup; [exact Hnd|]. intros a Ha. now apply HX. }
    destruct (IH (S d) (kids cs X) HndK Hkids) as [IHnd IHin].
    split.
    + apply NoDup_app; [exact Hnd|exact IHnd|].
      intros a Ha Ha'. destruct (HX a Ha) as [_ Hd].
      destruct (IHin a Ha') as [_ (k & Hle & Hk)].
      pose proof (atDepth_unique _ _ _ Hd Hk). lia.
    + intros a Ha. apply in_app_or in Ha. destruct Ha as [Ha|Ha].
      * destruct (HX a Ha). split; [assumption|]. exists d. auto.
      * destruct (IHin a Ha) as [Hin (k & Hle & Hk)].
        split; [assumption|]. exists k. split; [lia|assumption].
Qed.

Lemma roots_generations (n : nat) :
  NoDup (generations cs n (rootsOf cs))
  /\ (forall a, In a (generations cs n (rootsOf cs)) -> attached cs a).
Proof.
  destruct (generations_spec n 0 (rootsOf cs)) as [Hnd Hin].
  - apply NoDup_filter, comments_NoDup.
  - intros x Hx. now apply In_rootsOf in Hx.
  - split; [exact Hnd|]. intros a Ha. apply attached_atDepth.
    destruct (Hin a Ha) as [Hcs (k & _ & Hk)]. split; [exact Hcs|now exists k].
Qed.

Lemma roots_generations_length (n : nat) :
  length (generations cs n (rootsOf cs)) <= length cs.
Proof.
  destruct (roots_generations n) as [Hnd Hin].
  apply NoDup_incl_length; [exact Hnd|].
  intros a Ha. apply Hin in Ha. apply attached_atDepth in Ha. tauto.
Qed.

(** No chain of replies is longer than the list of comments. *)
Lemma generation_bound (k : nat) :
  length cs <= k -> generation cs k (rootsOf cs) = [].
Proof.
  intros Hk. destruct (generation cs k (rootsOf cs)) as [|a l] eqn:E;
    [reflexivity|].
  exfalso.
  assert (Hne : generation cs k (rootsOf cs) <> []) by (rewrite E; discriminate).
  pose proof (generations_length k _ Hne).
  pose proof (roots_generations_length (S k)). lia.
Qed.

Lemma attached_in_generations (c : Comment.t) :
  attached cs c -> In c (generations cs (S (length cs)) (rootsOf cs)).
Proof.
  intros Ha. apply attached_atDepth in Ha. destruct Ha as [Hin [k Hk]].
  pose proof (atDepth_generation k c Hin Hk) as Hgen.
  apply (generation_in_generations (S (length cs)) k); [|exact Hgen].
  destruct (Nat.lt_ge_cases k (S (length cs))) as [Hlt|Hge]; [exact Hlt|].
  rewrite generation_bound in Hgen by lia. destruct Hgen.
Qed.

End Threads.

(** *** The trees [build] computes *)

Section Build.

Variable cs : list Comment.t.

Lemma build_S (fuel : nat) (c : Comment.t) (t : CommentWithReplies) :
  build (S fuel) cs c = Some t ->
  exists ts,
    t = CWR c ts
    /\ sequence (map (build fuel cs) (childrenOf cs (Comment.id c))) = Some ts.
Proof.
  simpl. destruct (sequence _) as [ts|]; [|discriminate].
  intros H. injection H as <-. now exists ts.
Qed.

Lemma build_rootOf (fuel : nat) (c : Comment.t) (t : CommentWithReplies) :
  build fuel cs c = Some t -> rootOf t = c.
Proof.
  destruct fuel; [discriminate|]. intros H.
  apply build_S in H. destruct H as (ts & -> & _). reflexivity.
Qed.

Lemma builds_rootOf (fuel : nat) (X : list Comment.t)
  (ts : list CommentWithReplies) :
  sequence (map (build fuel cs) X) = Some ts -> map rootOf ts = X.
Proof.
  intros H. apply sequence_Forall2 in H.
  induction H as [|a t X ts Ha _ IH]; [reflexivity|].
  simpl. rewrite IH. f_equal. now apply build_rootOf with fuel.
Qed.

(** One level of trees: the trees over [X] exist when the trees one
    level down, over the replies to [X], do; their comments are those of
    [X] and of the trees one level down. *)
Lemma builds_step (fuel : nat) (X : list Comment.t) :
  (forall ts, sequence (map (build (S fuel) cs) X) = Some ts ->
     exists tss,
       sequence (map (build fuel cs) (kids cs X)) = Some tss
       /\ Permutation (flatForest ts) (X ++ flatForest tss))
  /\ (forall tss, sequence (map (build fuel cs) (kids cs X)) = Some tss ->
        exists ts, sequence (map (build (S fuel) cs) X) = Some ts).
Proof.
  induction X as [|a X [IH1 IH2]].
  - split.
    + intros ts H. simpl in H. injection H as <-. exists []. now split.
    + intros tss _. now exists [].
  - unfold kids in *. cbn [flat_map]. split.
    + intros ts H. rewrite map_cons, sequence_cons in H.
      destruct (build (S fuel) cs a) as [t|] eqn:Ht; [|discriminate].
      destruct (sequence (map (build (S fuel) cs) X)) as [ts'|] eqn:Hts;
        [|discriminate].
      injection H as <-. apply build_S in Ht. destruct Ht as (ta & -> & Hta).
      destruct (IH1 ts' eq_refl) as (tss' & Htss' & Hperm).
      exists (ta ++ tss'). split.
      * now rewrite map_app, sequence_app, Hta, Htss'.
      * unfold flatForest in *. cbn [flat_map flat]. rewrite flat_map_app.
        rewrite <- !app_comm_cons. constructor.
        rewrite Hperm. apply Permutation_app_swap_app.
    + intros tss H. rewrite map_app, sequence_app in H.
      destruct (sequence (map (build fuel cs) (childrenOf cs (Comment.id a))))
        as [ta|] eqn:Hta; [|discriminate].
      destruct (sequence (map (build fuel cs)
                              (flat_map (fun p => childrenOf cs (Comment.id p)) X)))
        as [tss'|] eqn:Htss'; [|discriminate].
      destruct (IH2 tss' eq_refl) as (ts' & Hts').
      exists (CWR a ta :: ts').
      rewrite map_cons, sequence_cons, Hts'. simpl. now rewrite Hta.
Qed.

(** The comments of the trees over [X] are the generations from [X] on. *)
Lemma builds_generations (fuel : nat) :
  forall (X : list Comment.t) (ts : list CommentWithReplies),
    sequence (map (build fuel cs) X) = Some ts ->
    Permutation (flatForest ts) (generations cs fuel X).
Proof.
  induction fuel as [|fuel IH]; intros X ts H.
  - destruct X; [|discriminate]. simpl in H. injection H as <-. constructor.
  - destruct (proj1 (builds_step fuel X) ts H) as (tss & Htss & Hperm).
    simpl. rewrite Hperm. apply Permutation_app_head. now apply IH.
Qed.

(** The trees over [X] exist as soon as the generation at depth [fuel]
    below [X] is empty. *)
Lemma builds_total (fuel : nat) :
  forall X : list Comment.t,
    generation cs fuel X = [] ->
    exists ts, sequence (map (build fuel cs) X) = Some ts.
Proof.
  induction fuel as [|fuel IH]; intros X H.
  - simpl in H. subst X. now exists [].
  - simpl in H. destruct (IH _ H) as (tss & Htss).
    exact (proj2 (builds_step fuel X) tss Htss).
Qed.

(** Every node of a tree holds, as replies, the comments that name it. *)
Lemma build_nodes (fuel : nat) :
  forall (c : Comment.t) (t : CommentWithReplies),
    build fuel cs c = Some t ->
    forall c' ts, In (CWR c' ts) (nodes t) ->
      map rootOf ts = childrenOf cs (Comment.id c').
Proof.
  induction fuel as [|fuel IH]; intros c t H c' ts Hin; [discriminate|].
  apply build_S in H. destruct H as (ts0 & -> & Hts0).
  cbn [nodes] in Hin. destruct Hin as [E|Hin].
  - injection E as <- <-. now apply builds_rootOf with fuel.
  - apply in_flat_map in Hin. destruct Hin as (t' & Ht' & Hin).
    apply sequence_Forall2 in Hts0.
    assert (Hex : exists a, build fuel cs a = Some t').
    { clear -Hts0 Ht'. induction Hts0 as [|a t l l' Ha _ IH']; [destruct Ht'|].
      destruct Ht' as [<-|Ht']; [now exists a|auto]. }
    destruct Hex as (a & Ha). exact (IH a t' Ha c' ts Hin).
Qed.

End Build.

(** *** Comment ids in the stores the methods produce *)

(** Filtering keeps the images under [key] pairwise distinct. *)
Lemma filter_keeps_distinct {A K : Type} (key : A -> K) (keep : A -> bool)
  (xs : list A) :
  NoDup (map key xs) -> NoDup (map key (filter keep xs)).
Proof.
  induction xs as [|a xs IH]; simpl; [auto|]. intros H.
  inversion H as [|? ? Ha Hxs]; subst.
  destruct (keep a); simpl; [|auto]. constructor; [|auto].
  intros Hin. apply Ha. apply in_map_iff in Hin.
  destruct Hin as (b & E & Hb). apply filter_In in Hb. rewrite <- E.
  now apply in_map.
Qed.

Lemma commentTableOk_set (m : JsMap.t Comment.t) (c : Comment.t) :
  commentTableOk m -> commentTableOk (JsMap.set (Comment.id c) c m).
Proof.
  intros [Hnd Hid].
  destruct (JsMap.get (Comment.id c) m) as [c0|] eqn:Hget.
  - split.
    + rewrite JsMapFacts.keys_set_present; [exact Hnd|congruence].
    + clear Hnd Hget. induction m as [|[k0 v0] m IH]; simpl.
      * intros k c' [E|[]]. now injection E as <- <-.
      * destruct (String.eqb_spec (Comment.id c) k0) as [E|E].
        -- intros k c' [E'|Hin]; [now injection E' as <- <-|].
           apply Hid. now right.
        -- intros k c' [E'|Hin]; [apply Hid; now left|].
           apply IH; [|exact Hin]. intros k' c'' H. apply Hid. now right.
  - rewrite (JsMapFacts.set_fresh _ _ _ Hget). split.
    + unfold JsMap.keys. rewrite map_app. simpl.
      apply NoDup_app; [exact Hnd|repeat constructor; intros []|].
      intros k Hk [<-|[]]. now apply JsMapFacts.get_None_keys in Hget.
    + intros k c' Hin. apply in_app_or in Hin.
      destruct Hin as [Hin|[E|[]]]; [now apply Hid|].
      now injection E as <- <-.
Qed.

Lemma commentTableOk_remove (m : JsMap.t Comment.t) (k : string) :
  commentTableOk m -> commentTableOk (JsMap.remove k m).
Proof.
  intros [Hnd Hid]. split.
  - unfold JsMap.keys, JsMap.remove. now apply filter_keeps_distinct.
  - intros k' c Hin. apply JsMapFacts.In_remove in Hin. now apply Hid.
Qed.

Lemma commentTableOk_deleteAll (ks : list string) (m : JsMap.t Comment.t) :
  commentTableOk m -> commentTableOk (deleteAll ks m).
Proof.
  unfold deleteAll. revert m. induction ks as [|k ks IH]; intros m H; simpl.
  - exact H.
  - apply IH. now apply commentTableOk_remove.
Qed.

Lemma applyOp_commentTableOk (this : MemStorage) (call : Date * StoreOp) :
  commentTableOk (comments this) -> commentTableOk (comments (applyOp this call)).
Proof.
  intros H. destruct call as [now op]. destruct op; simpl; try exact H.
  - unfold updateBlock. now destruct (JsMap.get id (blocks this)).
  - unfold deleteBlock, JsMap.delete.
    destruct (JsMap.has id (blocks this)); simpl; [|exact H].
    now apply commentTableOk_deleteAll.
  - apply (commentTableOk_set (comments this)
             (Comment.mk id (InsertComment.blockId insertComment)
                         (InsertComment.content insertComment)
                         (InsertComment.authorId insertComment)
                         (InsertComment.authorName insertComment)
                         (truthy (InsertComment.parentId insertComment)) now)).
    exact H.
  - now apply commentTableOk_remove.
Qed.

(** Every store reached from the empty one has pairwise distinct comment
    ids. *)
Lemma run_commentIdsUnique (calls : list (Date * StoreOp)) :
  commentIdsUnique (run calls newMemStorage).
Proof.
  assert (H : commentTableOk (comments (run calls newMemStorage))).
  { unfold run. generalize newMemStorage,
      (conj (NoDup_nil string)
            (fun k c (H : In (k, c) []) => match H return Comment.id c = k with end)
       : commentTableOk (comments newMemStorage)).
    induction calls as [|call calls IH]; intros this H; simpl; [exact H|].
    apply IH. now apply applyOp_commentTableOk. }
  destruct H as [Hnd Hid]. unfold commentIdsUnique, JsMap.values.
  rewrite map_map.
  rewrite (map_ext_in _ fst); [exact Hnd|].
  intros [k c] Hin. simpl. now apply Hid.
Qed.

Lemma blockCommentsOf_ids (this : MemStorage) (blockId : string) :
  commentIdsUnique this ->
  NoDup (map Comment.id (blockCommentsOf this blockId)).
Proof.
  intros H. unfold blockCommentsOf.
  eapply Permutation_NoDup.
  - apply Permutation_map. symmetry. apply JsArrayFacts.sort_perm.
  - now apply filter_keeps_distinct.
Qed.

Lemma In_blockCommentsOf (this : MemStorage) (blockId : string) (c : Comment.t) :
  In c (blockCommentsOf this blockId)
  <-> In c (JsMap.values (comments this)) /\ Comment.blockId c = blockId.
Proof.
  unfold blockCommentsOf. rewrite JsArrayFacts.sort_In, filter_In.
  now rewrite String.eqb_eq.
Qed.

(** *** The forest [getCommentsForBlock] returns *)

Lemma NoDup_map_id (cs l : list Comment.t) :
  NoDup (map Comment.id cs) -> NoDup l -> incl l cs ->
  NoDup (map Comment.id l).
Proof.
  intros Hcs Hl Hincl. apply NoDup_map_NoDup_ForallPairs; [|exact Hl].
  intros a b Ha Hb E. apply (id_inj cs Hcs); auto.
Qed.

(** A reply to a deleted comment, and a comment whose parent is on
    another block, are the only comment of their block and are not
    returned: the forest is empty. *)
Lemma orphan_reply_counterexample :
  blockCommentsOf orphanStore "A" = [commentC2]
  /\ JsMap.get "C1" (comments orphanStore) = None
  /\ getCommentsForBlock orphanStore "A" = Some []
  /\ map Comment.id (blockCommentsOf crossBlockStore "B") = ["C3"]
  /\ option_map Comment.blockId (JsMap.get "C1" (comments crossBlockStore))
     = Some "A"
  /\ getCommentsForBlock crossBlockStore "B" = Some [].
Proof. repeat split. Qed.

(** C4, amended.  [getCommentsForBlock] returns a forest; its roots are
    the comments of the block whose [parentId] is empty, in creation
    order; the replies of every node, at every depth, are the comments of
    the block that name it as parent, in creation order.  A comment is in
    the forest exactly when it is attached (its chain of parents stays on
    the block and ends in a comment without parent), and then exactly
    once; a comment whose parent is not a comment of the same block is not
    in the forest, no more than the replies below it.  The forest holds
    as many comments as the block has attached ones: at most the number
    of comments of the block, and that number when all are attached. *)
Theorem commentForest_placement (this : MemStorage) (blockId : string) :
  commentIdsUnique this ->
  let cs := blockCommentsOf this blockId in
  exists forest,
    getCommentsForBlock this blockId = Some forest
    /\ (forall c, In c cs <->
          In c (JsMap.values (comments this)) /\ Comment.blockId c = blockId)
    /\ map rootOf forest = rootsOf cs
    /\ (forall c replies, In (CWR c replies) (flat_map nodes forest) ->
          map rootOf replies = childrenOf cs (Comment.id c))
    /\ NoDup (map Comment.id (flatForest forest))
    /\ (forall c, In c (flatForest forest) <-> attached cs c)
    /\ (forall c p, In c cs -> parentRef c = Some p ->
          ~ In p (map Comment.id cs) -> ~ In c (flatForest forest))
    /\ length (flatForest forest) <= length cs
    /\ ((forall c, In c cs -> attached cs c) ->
        length (flatForest forest) = length cs).
Proof.
  intros Huniq cs.
  pose proof (blockCommentsOf_ids this blockId Huniq) as Hnd. fold cs in Hnd.
  rewrite (getCommentsForBlock_build this blockId Hnd). fold cs.
  destruct (builds_total cs (S (length cs)) (rootsOf cs)) as (forest & Hf).
  { apply generation_bound; [exact Hnd|lia]. }
  exists forest.
  pose proof (builds_generations cs _ _ _ Hf) as Hperm.
  destruct (roots_generations cs Hnd (S (length cs))) as [Hgnd Hgin].
  assert (Hmem : forall c, In c (flatForest forest) <-> attached cs c).
  { intros c. split.
    - intros Hc. apply Hgin. now apply (Permutation_in _ Hperm).
    - intros Hc. apply (Permutation_in _ (Permutation_sym Hperm)).
      now apply attached_in_generations. }
  assert (Hincl : incl (flatForest forest) cs).
  { intros c Hc. apply Hmem in Hc. now destruct Hc. }
  assert (Hfnd : NoDup (flatForest forest)).
  { exact (Permutation_NoDup (Permutation_sym Hperm) Hgnd). }
  split; [exact Hf|]. split; [apply In_blockCommentsOf|].
  split; [exact (builds_rootOf cs _ _ _ Hf)|]. split.
  { intros c replies Hin. apply in_flat_map in Hin.
    destruct Hin as (t & Ht & Hin).
    pose proof (proj1 (sequence_Forall2 _ _ _) Hf) as HF2.
    assert (Hex : exists a, build (S (length cs)) cs a = Some t).
    { clear -HF2 Ht. induction HF2 as [|a t0 l l' Ha _ IH]; [destruct Ht|].
      destruct Ht as [<-|Ht]; [now exists a|auto]. }
    destruct Hex as (a & Ha). exact (build_nodes cs _ a t Ha c replies Hin). }
  split; [now apply NoDup_map_id with cs|]. split; [exact Hmem|]. split.
  { intros c p Hc Hp Hnone Hin. apply Hmem in Hin.
    destruct Hin as [c Hc' Hroot|c q _ Hq Hpar _]; [congruence|].
    apply Hnone. replace p with (Comment.id q) by congruence.
    now apply in_map. }
  split.
  { rewrite (Permutation_length Hperm). now apply roots_generations_length. }
  intros Hall. apply Permutation_length.
  apply NoDup_Permutation; [exact Hfnd|exact (comments_NoDup cs Hnd)|].
  intros c. rewrite Hmem. split; [now destruct 1|apply Hall].
Qed.

Lemma commentForest_placement_witness :
  exists forest,
    getCommentsForBlock sampleStore "A" = Some forest
    /\ (forall c, In c (blockCommentsOf sampleStore "A") <->
          In c (JsMap.values (comments sampleStore)) /\ Comment.blockId c = "A")
    /\ map rootOf forest = [commentC1]
    /\ (forall c replies, In (CWR c replies) (flat_map nodes forest) ->
          map rootOf replies
          = childrenOf (blockCommentsOf sampleStore "A") (Comment.id c))
    /\ NoDup (map Comment.id (flatForest forest))
    /\ (forall c, In c (flatForest forest) <->
          attached (blockCommentsOf sampleStore "A") c)
    /\ (forall c p, In c (blockCommentsOf sampleStore "A") ->
          parentRef c = Some p ->
          ~ In p (map Comment.id (blockCommentsOf sampleStore "A")) ->
          ~ In c (flatForest forest))
    /\ length (flatForest forest) <= 2
    /\ ((forall c, In c (blockCommentsOf sampleStore "A") ->
           attached (blockCommentsOf sampleStore "A") c) ->
        length (flatForest forest) = 2).
Proof.
  apply (commentForest_placement sampleStore "A").
  apply (run_commentIdsUnique sampleCalls).
Defined.

(** The forest of the sample block, in full. *)
Lemma getCommentsForBlock_sample :
  getCommentsForBlock sampleStore "A"
  = Some [CWR commentC1 [CWR commentC2 []]].
Proof. reflexivity. Qed.

(** * Further properties of the storage and of the routes *)

(** ** More facts about [JsMap] *)

Lemma remove_absent {V : Type} (m : JsMap.t V) (k : string) :
  JsMap.get k m = None -> JsMap.remove k m = m.
Proof.
  unfold JsMap.remove. induction m as [|[k' v] m IH]; simpl; [reflexivity|].
  destruct (String.eqb k k'); [discriminate|]. intros H. simpl.
  now rewrite IH.
Qed.

Lemma has_get {V : Type} (m : JsMap.t V) (k : string) :
  JsMap.has k m = false <-> JsMap.get k m = None.
Proof. unfold JsMap.has. destruct (JsMap.get k m); split; congruence. Qed.

Lemma get_remove_ne {V : Type} (m : JsMap.t V) (k k' : string) :
  k <> k' -> JsMap.get k' (JsMap.remove k m) = JsMap.get k' m.
Proof.
  intros Hne. unfold JsMap.remove.
  induction m as [|[k0 v] m IH]; simpl; [reflexivity|].
  destruct (String.eqb_spec k k0) as [->|Hk]; simpl.
  - destruct (String.eqb_spec k' k0); [congruence|exact IH].
  - now rewrite IH.
Qed.

Lemma remove_set_fresh {V : Type} (m : JsMap.t V) (k : string) (v : V) :
  JsMap.get k m = None -> JsMap.remove k (JsMap.set k v m) = m.
Proof.
  intros H. rewrite (JsMapFacts.set_fresh _ _ _ H).
  unfold JsMap.remove. rewrite filter_app. simpl.
  rewrite String.eqb_refl. simpl. rewrite app_nil_r.
  now apply remove_absent.
Qed.

Lemma In_set {V : Type} (m : JsMap.t V) (k : string) (v : V) (e : string * V) :
  In e (JsMap.set k v m) -> e = (k, v) \/ In e m.
Proof.
  induction m as [|[k0 v0] m IH]; simpl; [intuition|].
  destruct (String.eqb k k0); simpl; intuition.
Qed.

Lemma keys_set_NoDup {V : Type} (m : JsMap.t V) (k : string) (v : V) :
  NoDup (JsMap.keys m) -> NoDup (JsMap.keys (JsMap.set k v m)).
Proof.
  intros Hnd. destruct (JsMap.get k m) as [v0|] eqn:Hget.
  - rewrite JsMapFacts.keys_set_present; [exact Hnd|congruence].
  - rewrite (JsMapFacts.set_fresh _ _ _ Hget).
    unfold JsMap.keys. rewrite map_app. simpl.
    apply NoDup_app; [exact Hnd|repeat constructor; intros []|].
    intros k' Hk' [<-|[]]. now apply JsMapFacts.get_None_keys in Hget.
Qed.

(** Deleting a list of keys one by one keeps the entries under the other
    keys, in order. *)
Lemma deleteAll_filter {V : Type} (ks : list string) (m : JsMap.t V) :
  deleteAll ks m
  = filter (fun e => negb (existsb (String.eqb (fst e)) ks)) m.
Proof.
  unfold deleteAll. revert m. induction ks as [|k ks IH]; intros m; simpl.
  - induction m as [|e m IHm]; simpl; [reflexivity|]. now rewrite <- IHm.
  - rewrite IH. unfold JsMap.remove.
    induction m as [|e m IHm]; simpl; [reflexivity|].
    rewrite (String.eqb_sym k (fst e)).
    destruct (String.eqb (fst e) k); simpl; now rewrite IHm.
Qed.

(** In a table with distinct keys, deleting the keys of the entries that
    satisfy [P] removes exactly those entries. *)
Lemma deleteAll_matching {V : Type} (P : string * V -> bool) (m : JsMap.t V) :
  NoDup (JsMap.keys m) ->
  deleteAll (map fst (filter P m)) m = filter (fun e => negb (P e)) m.
Proof.
  intros Hnd. rewrite deleteAll_filter. apply filter_ext_in.
  intros [k v] Hin. f_equal. simpl.
  destruct (P (k, v)) eqn:HP.
  - apply existsb_exists. exists k. split; [|apply String.eqb_refl].
    change k with (fst (k, v)). apply in_map. apply filter_In. now split.
  - destruct (existsb (String.eqb k) (map fst (filter P m))) eqn:E;
      [|reflexivity].
    apply existsb_exists in E. destruct E as (k' & Hk' & Heq).
    apply String.eqb_eq in Heq. subst k'.
    apply in_map_iff in Hk'. destruct Hk' as ([k' v'] & Hfst & Hf).
    simpl in Hfst. subst k'. apply filter_In in Hf. destruct Hf as [Hin' HP'].
    pose proof (JsMapFacts.In_get m k v Hnd Hin) as G1.
    pose proof (JsMapFacts.In_get m k v' Hnd Hin') as G2.
    congruence.
Qed.

Lemma values_filter {V : Type} (P : V -> bool) (m : JsMap.t V) :
  JsMap.values (filter (fun e => P (snd e)) m) = filter P (JsMap.values m).
Proof.
  unfold JsMap.values. induction m as [|[k v] m IH]; simpl; [reflexivity|].
  destruct (P v); simpl; now rewrite IH.
Qed.

Lemma tableOk_set {V : Type} (idOf : V -> string) (m : JsMap.t V)
  (k : string) (v : V) :
  idOf v = k -> tableOk idOf m -> tableOk idOf (JsMap.set k v m).
Proof.
  intros Hid [Hnd Hm]. split; [now apply keys_set_NoDup|].
  intros k' v' Hin. apply In_set in Hin. destruct Hin as [E|Hin].
  - now injection E as -> ->.
  - now apply Hm.
Qed.

Lemma tableOk_remove {V : Type} (idOf : V -> string) (m : JsMap.t V)
  (k : string) :
  tableOk idOf m -> tableOk idOf (JsMap.remove k m).
Proof.
  intros [Hnd Hm]. split.
  - unfold JsMap.keys, JsMap.remove. now apply filter_keeps_distinct.
  - intros k' v Hin. apply JsMapFacts.In_remove in Hin. now apply Hm.
Qed.

Lemma tableOk_deleteAll {V : Type} (idOf : V -> string) (ks : list string)
  (m : JsMap.t V) :
  tableOk idOf m -> tableOk idOf (deleteAll ks m).
Proof.
  unfold deleteAll. revert m. induction ks as [|k ks IH]; intros m H; simpl.
  - exact H.
  - apply IH. now apply tableOk_remove.
Qed.

Lemma tableOk_ids {V : Type} (idOf : V -> string) (m : JsMap.t V) :
  tableOk idOf m -> map idOf (JsMap.values m) = JsMap.keys m.
Proof.
  intros [_ Hm]. unfold JsMap.values, JsMap.keys. rewrite map_map.
  apply map_ext_in. intros [k v] Hin. simpl. now apply Hm.
Qed.

(** ** Well-formed stores *)

Lemma applyOp_storeOk (this : MemStorage) (call : Date * StoreOp) :
  storeOk this -> storeOk (applyOp this call).
Proof.
  intros (Hb & Hl & Hc). destruct call as [now op].
  destruct op; simpl; unfold storeOk.
  - simpl. split; [|split]; try assumption. now apply tableOk_set.
  - unfold updateBlock.
    destruct (JsMap.get id (blocks this)) as [existing|] eqn:Hget; simpl;
      (split; [|split]); try assumption.
    apply tableOk_set; [|assumption]. simpl.
    apply (proj2 Hb). now apply JsMapFacts.get_In.
  - unfold deleteBlock, JsMap.delete.
    destruct (JsMap.has id (blocks this)); simpl; (split; [|split]);
      try assumption;
      first [ now apply tableOk_remove | now apply tableOk_deleteAll ].
  - simpl. split; [|split]; try assumption. now apply tableOk_set.
  - simpl. split; [|split]; try assumption. now apply tableOk_remove.
  - simpl. split; [|split]; try assumption. now apply tableOk_set.
  - simpl. split; [|split]; try assumption. now apply tableOk_remove.
Qed.

Lemma newMemStorage_storeOk : storeOk newMemStorage.
Proof.
  unfold storeOk, tableOk. simpl.
  repeat split; try constructor; intros ? ? [].
Qed.

Lemma reachable_storeOk (calls : list (Date * StoreOp)) :
  storeOk (run calls newMemStorage).
Proof.
  unfold run. generalize newMemStorage, newMemStorage_storeOk.
  induction calls as [|call calls IH]; intros this H; simpl; [exact H|].
  apply IH. now apply applyOp_storeOk.
Qed.

(** X1.  In every store reached from the empty one by the mutating
    methods, each table has pairwise distinct keys and holds every record
    under the record's own id: [getBlock(id)] answers a block whose [id]
    is [id], and the ids of the blocks, of the links and of the comments
    are pairwise distinct. *)
Theorem run_storeOk (calls : list (Date * StoreOp)) :
  storeOk (run calls newMemStorage)
  /\ (forall id block,
        getBlock (run calls newMemStorage) id = Some block ->
        Block.id block = id)
  /\ NoDup (map Block.id (JsMap.values (blocks (run calls newMemStorage))))
  /\ NoDup (map Link.id (getLinks (run calls newMemStorage)))
  /\ NoDup (map Comment.id (JsMap.values (comments (run calls newMemStorage)))).
Proof.
  pose proof (reachable_storeOk calls) as H.
  split; [exact H|]. destruct H as (Hb & Hl & Hc).
  split; [|split; [|split]].
  - intros id block Hget. apply (proj2 Hb). now apply JsMapFacts.get_In.
  - rewrite (tableOk_ids _ _ Hb). apply Hb.
  - unfold getLinks. rewrite (tableOk_ids _ _ Hl). apply Hl.
  - rewrite (tableOk_ids _ _ Hc). apply Hc.
Qed.

(** ** Blocks *)

(** X2.  [createBlock] stores the new block under the id it was given, so
    [getBlock] finds it at once, and every other id answers as before
    (a block that was stored under the same id is replaced).  An absent or
    empty [content] becomes the empty string, an absent or empty
    [contentType] becomes "text", an absent (or null) [position] becomes
    the origin and absent (or null) [tags] the empty list; links and
    comments are untouched. *)
Theorem createBlock_getBlock (this : MemStorage) (insertBlock : InsertBlock.t)
  (id : string) (now : Date) :
  let block := fst (createBlock this insertBlock id now) in
  let this' := snd (createBlock this insertBlock id now) in
  getBlock this' id = Some block
  /\ (forall id', id' <> id -> getBlock this' id' = getBlock this id')
  /\ Block.id block = id
  /\ Block.title block = InsertBlock.title insertBlock
  /\ (truthy (InsertBlock.content insertBlock) = None -> Block.content block = "")
  /\ (truthy (InsertBlock.contentType insertBlock) = None ->
      Block.contentType block = "text")
  /\ (forall v, truthy (InsertBlock.contentType insertBlock) = Some v ->
      Block.contentType block = v)
  /\ (InsertBlock.position insertBlock = None ->
      Block.position block = Some (Position.mk 0 0))
  /\ (InsertBlock.tags insertBlock = None -> Block.tags block = Some [])
  /\ links this' = links this
  /\ comments this' = comments this.
Proof.
  simpl. unfold getBlock. simpl.
  split; [apply JsMapFacts.get_set_eq|].
  split; [intros id' Hne; apply JsMapFacts.get_set_ne; congruence|].
  unfold or_string, or_object.
  repeat split; try (intros H; now rewrite H).
  intros v H. now rewrite H.
Qed.

(** X3.  [deleteBlock] on an id that is not in the block table returns
    [false] and leaves the three tables exactly as they were: no link and
    no comment is removed, not even those that name the id. *)
Theorem deleteBlock_absent (this : MemStorage) (id : string) :
  getBlock this id = None -> deleteBlock this id = (false, this).
Proof.
  unfold getBlock, deleteBlock, JsMap.delete. intros H.
  rewrite (proj2 (has_get _ _) H), (remove_absent _ _ H).
  now destruct this.
Qed.

Lemma deleteBlock_absent_witness :
  deleteBlock sampleStore "Z" = (false, sampleStore).
Proof. apply (deleteBlock_absent sampleStore "Z"). reflexivity. Defined.

(** X4.  In a store whose link and comment tables have distinct keys, a
    successful [deleteBlock(B)] removes exactly the links that touch [B]
    and exactly the comments of [B]: the links and comments that remain
    are all the others, in their former order, and every other block is
    still found. *)
Theorem deleteBlock_exact (this this' : MemStorage) (B : string) :
  NoDup (JsMap.keys (links this)) ->
  NoDup (JsMap.keys (comments this)) ->
  deleteBlock this B = (true, this') ->
  getLinks this' = filter (fun link => negb (touches B link)) (getLinks this)
  /\ JsMap.values (comments this')
     = filter (fun comment => negb (String.eqb (Comment.blockId comment) B))
              (JsMap.values (comments this))
  /\ (forall id, id <> B -> getBlock this' id = getBlock this id).
Proof.
  intros Hl Hc. unfold deleteBlock, JsMap.delete, JsMap.entries.
  destruct (JsMap.has B (blocks this)); [|discriminate].
  intros H. injection H as <-. unfold getLinks, getBlock. simpl.
  split; [|split].
  - rewrite (deleteAll_matching
               (fun e => String.eqb (Link.fromBlockId (snd e)) B
                         || String.eqb (Link.toBlockId (snd e)) B) _ Hl).
    apply (values_filter (fun link => negb (touches B link))).
  - rewrite (deleteAll_matching
               (fun e => String.eqb (Comment.blockId (snd e)) B) _ Hc).
    apply (values_filter
             (fun comment => negb (String.eqb (Comment.blockId comment) B))).
  - intros id Hne. apply get_remove_ne. congruence.
Qed.

Lemma deleteBlock_exact_witness :
  getLinks (snd (deleteBlock selfLinkStore "A"))
  = filter (fun link => negb (touches "A" link)) (getLinks selfLinkStore)
  /\ JsMap.values (comments (snd (deleteBlock selfLinkStore "A")))
     = filter (fun comment => negb (String.eqb (Comment.blockId comment) "A"))
              (JsMap.values (comments selfLinkStore))
  /\ (forall id, id <> "A" ->
        getBlock (snd (deleteBlock selfLinkStore "A")) id
        = getBlock selfLinkStore id).
Proof.
  apply (deleteBlock_exact selfLinkStore (snd (deleteBlock selfLinkStore "A")) "A").
  - simpl. repeat constructor; simpl; intuition discriminate.
  - simpl. repeat constructor; simpl; intuition discriminate.
  - reflexivity.
Defined.

(** ** Links *)

(** X5.  [getLinksBetween] does not depend on the order of its two
    arguments, and every link it returns is among the links
    [getLinksForBlock] returns for either argument. *)
Theorem getLinksBetween_symmetric (this : MemStorage) (a b : string) :
  getLinksBetween this a b = getLinksBetween this b a
  /\ incl (getLinksBetween this a b) (getLinksForBlock this a)
  /\ incl (getLinksBetween this a b) (getLinksForBlock this b).
Proof.
  unfold getLinksBetween, getLinksForBlock. split; [|split].
  - apply filter_ext. intros link. apply orb_comm.
  - intros link. rewrite !filter_In. intros [Hin H]. split; [exact Hin|].
    destruct (String.eqb (Link.fromBlockId link) a),
             (String.eqb (Link.toBlockId link) a); simpl in *; auto.
    rewrite andb_false_r in H. discriminate.
  - intros link. rewrite !filter_In. intros [Hin H]. split; [exact Hin|].
    destruct (String.eqb (Link.fromBlockId link) b),
             (String.eqb (Link.toBlockId link) b); simpl in *; auto.
    rewrite andb_false_r in H. discriminate.
Qed.

(** X6.  A link created under an id that the link table does not hold is
    the last of [getLinks], is returned by [getLinksBetween] for its two
    endpoints, and [deleteLink] of its id returns [true] and gives back
    the store as it was before the creation. *)
Theorem createLink_deleteLink (this : MemStorage) (insertLink : InsertLink.t)
  (id : string) (now : Date) :
  JsMap.get id (links this) = None ->
  let link := fst (createLink this insertLink id now) in
  let this' := snd (createLink this insertLink id now) in
  getLinks this' = getLinks this ++ [link]
  /\ In link (getLinksBetween this' (InsertLink.fromBlockId insertLink)
                                    (InsertLink.toBlockId insertLink))
  /\ deleteLink this' id = (true, this).
Proof.
  intros Hfresh. simpl. unfold getLinks, getLinksBetween, deleteLink. simpl.
  rewrite (JsMapFacts.set_fresh _ _ _ Hfresh).
  unfold JsMap.values. rewrite map_app. simpl. split; [reflexivity|]. split.
  - apply filter_In. split; [apply in_or_app; right; now left|].
    simpl. now rewrite !String.eqb_refl.
  - unfold JsMap.delete, JsMap.has.
    rewrite <- (JsMapFacts.set_fresh _ _ _ Hfresh).
    rewrite JsMapFacts.get_set_eq, (remove_set_fresh _ _ _ Hfresh).
    now destruct this.
Qed.

Lemma createLink_deleteLink_witness :
  getLinks (snd (createLink sampleStore (InsertLink.mk "B" "A") "L9" 7%Z))
  = getLinks sampleStore ++ [Link.mk "L9" "B" "A" 7%Z]
  /\ In (Link.mk "L9" "B" "A" 7%Z)
        (getLinksBetween
           (snd (createLink sampleStore (InsertLink.mk "B" "A") "L9" 7%Z))
           "B" "A")
  /\ deleteLink (snd (createLink sampleStore (InsertLink.mk "B" "A") "L9" 7%Z))
                "L9"
     = (true, sampleStore).
Proof.
  apply (createLink_deleteLink sampleStore (InsertLink.mk "B" "A") "L9" 7%Z).
  reflexivity.
Defined.

(** ** Order of getBlocks *)

Lemma insert_filter {A : Type} (cmp : A -> A -> Z) (p : A -> bool) (a : A)
  (l : list A) :
  (forall b c, p b = true -> p c = true -> (cmp b c <= 0)%Z) ->
  filter p (JsArray.insert cmp a l) = filter p (a :: l).
Proof.
  intros Hp. induction l as [|b l IH]; [reflexivity|].
  cbn [JsArray.insert]. destruct (Z.leb_spec (cmp a b) 0) as [Hle|Hgt];
    [reflexivity|].
  cbn [filter] in *. rewrite IH.
  destruct (p a) eqn:Ha, (p b) eqn:Hb; try reflexivity.
  specialize (Hp a b Ha Hb). lia.
Qed.

Lemma sort_filter {A : Type} (cmp : A -> A -> Z) (p : A -> bool) (l : list A) :
  (forall b c, p b = true -> p c = true -> (cmp b c <= 0)%Z) ->
  filter p (JsArray.sort cmp l) = filter p l.
Proof.
  intros Hp. induction l as [|a l IH]; [reflexivity|].
  unfold JsArray.sort in *. cbn [fold_right].
  rewrite (insert_filter cmp p a _ Hp). cbn [filter]. now rewrite IH.
Qed.

(** X7.  [getBlocks] keeps blocks with the same [updatedAt] in the order
    of the block table: for every timestamp, the blocks of the result with
    that timestamp are those of the table, in insertion order. *)
Theorem getBlocks_stable (this : MemStorage) (t : Date) :
  filter (fun block => Z.eqb (Block.updatedAt block) t) (getBlocks this)
  = filter (fun block => Z.eqb (Block.updatedAt block) t)
           (JsMap.values (blocks this)).
Proof.
  unfold getBlocks. apply sort_filter. intros b c Hb Hc.
  apply Z.eqb_eq in Hb, Hc. lia.
Qed.

(** X8.  When [updateBlock] finds the block and the clock reading is
    later than the [updatedAt] of every block of the table, the updated
    block is the first one [getBlocks] returns afterwards. *)
Theorem updateBlock_moves_first (this : MemStorage) (id : string)
  (updates : PartialInsertBlock.t) (now : Date) (existing : Block.t) :
  getBlock this id = Some existing ->
  (forall block, In block (JsMap.values (blocks this)) ->
     (Block.updatedAt block < now)%Z) ->
  exists updated rest,
    fst (updateBlock this id updates now) = Some updated
    /\ getBlocks (snd (updateBlock this id updates now)) = updated :: rest.
Proof.
  unfold getBlock. intros Hget Hold. unfold updateBlock. rewrite Hget.
  cbn [fst snd]. set (updated := Block.mk _ _ _ _ _ _ _ _ _ _).
  set (this' := mkMemStorage _ _ _).
  assert (Hin : In updated (getBlocks this')).
  { unfold getBlocks. apply JsArrayFacts.sort_In. unfold this'. simpl.
    unfold JsMap.values. change updated with (snd (id, updated)).
    apply in_map. apply JsMapFacts.get_In. apply JsMapFacts.get_set_eq. }
  assert (Hsorted : StronglySorted newerFirst (getBlocks this')).
  { unfold getBlocks.
    eapply JsArrayFacts.StronglySorted_weaken;
      [|apply JsArrayFacts.sort_sorted; intros; lia].
    unfold before, newerFirst. intros a b. lia. }
  assert (Hvals : forall block, In block (getBlocks this') ->
                    block = updated \/ (Block.updatedAt block < now)%Z).
  { intros block Hb. unfold getBlocks in Hb. apply JsArrayFacts.sort_In in Hb.
    unfold this' in Hb. simpl in Hb. apply values_set_In in Hb.
    destruct Hb as [->|Hb]; [now left|right; now apply Hold]. }
  destruct (getBlocks this') as [|h rest]; [destruct Hin|].
  exists updated, rest. split; [reflexivity|]. f_equal.
  destruct (Hvals h (or_introl eq_refl)) as [->|Hlt]; [reflexivity|].
  destruct Hin as [->|Hin]; [reflexivity|]. exfalso.
  inversion Hsorted as [|? ? _ Hall]; subst.
  rewrite Forall_forall in Hall. specialize (Hall updated Hin).
  unfold newerFirst in Hall. simpl in Hall. lia.
Qed.

Lemma updateBlock_moves_first_witness :
  exists updated rest,
    fst (updateBlock sampleStore "A" sampleUpdates 9%Z) = Some updated
    /\ getBlocks (snd (updateBlock sampleStore "A" sampleUpdates 9%Z))
       = updated :: rest.
Proof.
  apply (updateBlock_moves_first sampleStore "A" sampleUpdates 9%Z blockA).
  - reflexivity.
  - intros block Hin. simpl in Hin.
    destruct Hin as [<-|[<-|[]]]; simpl; lia.
Defined.

(** ** Comment threads, continued *)

(** The shape of the forest, for use below. *)
Lemma getCommentsForBlock_shape (this : MemStorage) (blockId : string) :
  commentIdsUnique this ->
  exists forest,
    getCommentsForBlock this blockId = Some forest
    /\ map rootOf forest = rootsOf (blockCommentsOf this blockId)
    /\ (forall c replies, In (CWR c replies) (flat_map nodes forest) ->
          map rootOf replies
          = childrenOf (blockCommentsOf this blockId) (Comment.id c))
    /\ NoDup (flatForest forest)
    /\ (forall c, In c (flatForest forest)
                  <-> attached (blockCommentsOf this blockId) c).
Proof.
  intros Huniq. set (cs := blockCommentsOf this blockId).
  pose proof (blockCommentsOf_ids this blockId Huniq) as Hnd. fold cs in Hnd.
  rewrite (getCommentsForBlock_build this blockId Hnd). fold cs.
  destruct (builds_total cs (S (length cs)) (rootsOf cs)) as (forest & Hf).
  { apply generation_bound; [exact Hnd|lia]. }
  exists forest.
  pose proof (builds_generations cs _ _ _ Hf) as Hperm.
  destruct (roots_generations cs Hnd (S (length cs))) as [Hgnd Hgin].
  split; [exact Hf|]. split; [exact (builds_rootOf cs _ _ _ Hf)|].
  split; [|split].
  - intros c replies Hin. apply in_flat_map in Hin.
    destruct Hin as (t & Ht & Hin).
    pose proof (proj1 (sequence_Forall2 _ _ _) Hf) as HF2.
    assert (Hex : exists a, build (S (length cs)) cs a = Some t).
    { clear -HF2 Ht. induction HF2 as [|a t0 l l' Ha _ IH]; [destruct Ht|].
      destruct Ht as [<-|Ht]; [now exists a|auto]. }
    destruct Hex as (a & Ha). exact (build_nodes cs _ a t Ha c replies Hin).
  - exact (Permutation_NoDup (Permutation_sym Hperm) Hgnd).
  - intros c. split.
    + intros Hc. apply Hgin. now apply (Permutation_in _ Hperm).
    + intros Hc. apply (Permutation_in _ (Permutation_sym Hperm)).
      now apply attached_in_generations.
Qed.

Lemma attached_In (cs : list Comment.t) (c : Comment.t) :
  attached cs c -> In c cs.
Proof. now destruct 1. Qed.

Lemma filter_sorted {A : Type} (R : A -> A -> Prop) (p : A -> bool)
  (l : list A) :
  StronglySorted R l -> StronglySorted R (filter p l).
Proof.
  induction 1 as [|a l Hs IH Ha]; simpl; [constructor|].
  destruct (p a); [|exact IH]. constructor; [exact IH|].
  rewrite Forall_forall in *. intros b Hb. apply Ha.
  now apply filter_In in Hb.
Qed.

Lemma blockCommentsOf_sorted (this : MemStorage) (blockId : string) :
  StronglySorted olderFirst (blockCommentsOf this blockId).
Proof.
  unfold blockCommentsOf.
  eapply JsArrayFacts.StronglySorted_weaken;
    [|apply JsArrayFacts.sort_sorted; intros; lia].
  unfold before, olderFirst. intros a b. lia.
Qed.

(** X9.  [getCommentsForBlock] returns a forest that lists its roots in
    creation order (oldest first), and at every node, at every depth, the
    replies in creation order; every comment in it is a comment of the
    block asked for. *)
Theorem getCommentsForBlock_order (this : MemStorage) (blockId : string) :
  commentIdsUnique this ->
  exists forest,
    getCommentsForBlock this blockId = Some forest
    /\ StronglySorted olderFirst (map rootOf forest)
    /\ (forall c replies, In (CWR c replies) (flat_map nodes forest) ->
          StronglySorted olderFirst (map rootOf replies))
    /\ (forall c, In c (flatForest forest) ->
          In c (JsMap.values (comments this)) /\ Comment.blockId c = blockId).
Proof.
  intros Huniq.
  destruct (getCommentsForBlock_shape this blockId Huniq)
    as (forest & Hf & Hroots & Hnodes & _ & Hmem).
  exists forest. split; [exact Hf|]. split; [|split].
  - rewrite Hroots. apply filter_sorted, blockCommentsOf_sorted.
  - intros c replies Hin. rewrite (Hnodes c replies Hin).
    apply filter_sorted, blockCommentsOf_sorted.
  - intros c Hc. apply Hmem, attached_In in Hc.
    now apply In_blockCommentsOf in Hc.
Qed.

Lemma getCommentsForBlock_order_witness :
  exists forest,
    getCommentsForBlock sampleStore "A" = Some forest
    /\ StronglySorted olderFirst (map rootOf forest)
    /\ (forall c replies, In (CWR c replies) (flat_map nodes forest) ->
          StronglySorted olderFirst (map rootOf replies))
    /\ (forall c, In c (flatForest forest) ->
          In c (JsMap.values (comments sampleStore)) /\ Comment.blockId c = "A").
Proof.
  apply (getCommentsForBlock_order sampleStore "A").
  apply (run_commentIdsUnique sampleCalls).
Defined.

(** X10.  [commentCount] of [getBlockWithLinks(B)] counts every comment
    of the comment table whose block is [B], attached or not;
    [getCommentsForBlock(B)] returns a forest that never holds more
    comments than that, and holds as many exactly when every comment of
    the block is attached. *)
Theorem commentCount_counts_all (this : MemStorage) (B : string)
  (r : BlockWithLinks.t) :
  commentIdsUnique this ->
  getBlockWithLinks this B = Some r ->
  BlockWithLinks.commentCount r = length (blockCommentsOf this B)
  /\ (forall c, In c (BlockWithLinks.comments r) <->
        In c (JsMap.values (comments this)) /\ Comment.blockId c = B)
  /\ exists forest,
       getCommentsForBlock this B = Some forest
       /\ length (flatForest forest) <= BlockWithLinks.commentCount r
       /\ (length (flatForest forest) = BlockWithLinks.commentCount r <->
           forall c, In c (blockCommentsOf this B) ->
             attached (blockCommentsOf this B) c).
Proof.
  intros Huniq Hr.
  destruct (getCommentsForBlock_shape this B Huniq)
    as (forest & Hf & _ & _ & Hnd & Hmem).
  set (cs := blockCommentsOf this B) in *.
  assert (Hcount : BlockWithLinks.commentCount r = length cs).
  { unfold getBlockWithLinks in Hr.
    destruct (JsMap.get B (blocks this)); [|discriminate].
    injection Hr as <-. simpl. unfold cs, blockCommentsOf.
    now rewrite JsArrayFacts.sort_length. }
  assert (Hcomments : forall c, In c (BlockWithLinks.comments r) <->
            In c (JsMap.values (comments this)) /\ Comment.blockId c = B).
  { unfold getBlockWithLinks in Hr.
    destruct (JsMap.get B (blocks this)); [|discriminate].
    injection Hr as <-. simpl. intros c. rewrite filter_In.
    now rewrite String.eqb_eq. }
  assert (Hincl : incl (flatForest forest) cs).
  { intros c Hc. now apply Hmem, attached_In in Hc. }
  pose proof (blockCommentsOf_ids this B Huniq) as Hids. fold cs in Hids.
  pose proof (comments_NoDup cs Hids) as Hcs.
  split; [exact Hcount|]. split; [exact Hcomments|].
  exists forest. split; [exact Hf|]. rewrite Hcount. split.
  - now apply NoDup_incl_length.
  - split.
    + intros Hlen c Hc. apply Hmem.
      apply (NoDup_length_incl (l := flatForest forest) (l' := cs));
        [exact Hnd|lia|exact Hincl|exact Hc].
    + intros Hall. apply Permutation_length.
      apply NoDup_Permutation; [exact Hnd|exact Hcs|].
      intros c. rewrite Hmem. split; [apply attached_In|apply Hall].
Qed.

Lemma commentCount_counts_all_witness :
  1 = length (blockCommentsOf orphanStore "A")
  /\ (forall c, In c [commentC2] <->
        In c (JsMap.values (comments orphanStore)) /\ Comment.blockId c = "A")
  /\ exists forest,
       getCommentsForBlock orphanStore "A" = Some forest
       /\ length (flatForest forest) <= 1
       /\ (length (flatForest forest) = 1 <->
           forall c, In c (blockCommentsOf orphanStore "A") ->
             attached (blockCommentsOf orphanStore "A") c).
Proof.
  apply (commentCount_counts_all orphanStore "A"
           (BlockWithLinks.mk blockA [blockB] [] [commentC2] 1 1)).
  - apply (run_commentIdsUnique (sampleCalls ++ [ (6%Z, OpDeleteComment "C1") ])).
  - reflexivity.
Defined.

(** X11.  [deleteComment] does not cascade: in a store whose comments are
    stored under their ids, after [deleteComment(P)] a comment that names
    [P] as parent is still in the comment table (so [commentCount] still
    counts it), and [getCommentsForBlock] returns, for its block, a forest
    that no longer contains it. *)
Theorem deleteComment_orphans_replies (this : MemStorage) (P : string)
  (c : Comment.t) :
  tableOk Comment.id (comments this) ->
  In c (JsMap.values (comments this)) ->
  parentRef c = Some P -> Comment.id c <> P ->
  In c (JsMap.values (comments (snd (deleteComment this P))))
  /\ exists forest,
       getCommentsForBlock (snd (deleteComment this P)) (Comment.blockId c)
       = Some forest
       /\ ~ In c (flatForest forest).
Proof.
  intros Hok Hin Hpar Hne.
  unfold deleteComment, JsMap.delete in *. cbn [snd comments] in *.
  pose proof (tableOk_remove _ _ P Hok) as Hok'.
  split.
  - unfold JsMap.values in *. apply in_map_iff in Hin.
    destruct Hin as ([k c'] & E & Hin). simpl in E. subst c'.
    apply in_map_iff. exists (k, c). split; [reflexivity|].
    apply JsMapFacts.In_remove. split; [exact Hin|]. simpl.
    rewrite <- (proj2 Hok k c Hin). exact Hne.
  - set (this' := mkMemStorage _ _ _) in *.
    assert (Huniq : commentIdsUnique this').
    { unfold commentIdsUnique, this'. simpl.
      rewrite (tableOk_ids _ _ Hok'). apply Hok'. }
    destruct (getCommentsForBlock_shape this' (Comment.blockId c) Huniq)
      as (forest & Hf & _ & _ & _ & Hmem).
    exists forest. split; [exact Hf|]. intros Hc.
    apply Hmem in Hc.
    assert (Hq : exists q, In q (blockCommentsOf this' (Comment.blockId c))
                           /\ Comment.id q = P).
    { inversion Hc as [? _ Hroot|? q _ Hq Hparq _]; subst; [congruence|].
      exists q. split; [exact Hq|congruence]. }
    destruct Hq as (q & Hq & HqP).
    apply In_blockCommentsOf in Hq. destruct Hq as [Hq _].
    unfold this' in Hq. simpl in Hq. unfold JsMap.values in Hq.
    apply in_map_iff in Hq. destruct Hq as ([k q'] & E & Hq).
    simpl in E. subst q'. pose proof (proj2 Hok' k q Hq) as Hid.
    apply JsMapFacts.In_remove in Hq. destruct Hq as [_ Hk]. simpl in Hk.
    congruence.
Qed.

Lemma deleteComment_orphans_replies_witness :
  In commentC2 (JsMap.values (comments (snd (deleteComment sampleStore "C1"))))
  /\ exists forest,
       getCommentsForBlock (snd (deleteComment sampleStore "C1")) "A"
       = Some forest
       /\ ~ In commentC2 (flatForest forest).
Proof.
  apply (deleteComment_orphans_replies sampleStore "C1" commentC2).
  - exact (proj2 (proj2 (reachable_storeOk sampleCalls))).
  - simpl. auto.
  - reflexivity.
  - discriminate.
Defined.

(** ** Routes and broadcast *)

Lemma stored_same (w : World) : stored w (storage w) = w.
Proof. now destruct w. Qed.

Lemma forEach_frame (data : string) (cs : list WebSocket) (w : World) :
  storage (snd (forEach (sendIfOpen data) cs w)) = storage w
  /\ clients (snd (forEach (sendIfOpen data) cs w)) = clients w.
Proof.
  revert w. induction cs as [|c cs IH]; intros w; [now split|].
  simpl. unfold bind, sendIfOpen at 1 3, send.
  destruct (isOpen c); [destruct (sendThrows c)|]; simpl.
  - now split.
  - destruct (IH (logged w [CallSend (ws c) data])) as [H1 H2].
    unfold logged in *. now rewrite H1, H2.
  - apply IH.
Qed.

(** A broadcast touches neither the storage nor the registry, whether it
    returns or throws. *)
Lemma broadcast_frame (JSON_stringify : Message -> string) (message : Message)
  (w : World) :
  storage (snd (broadcastToClients JSON_stringify message w)) = storage w
  /\ clients (snd (broadcastToClients JSON_stringify message w)) = clients w.
Proof.
  unfold broadcastToClients, stringify, bind, logEffect, ret. simpl.
  apply (forEach_frame (JSON_stringify message) (clients w)
           (mkWorld (storage w) (clients w) (trace w ++ [CallStringify message]))).
Qed.

Lemma broadcast_returns (JSON_stringify : Message -> string) (message : Message)
  (w : World) :
  sendsGoThrough (clients w) ->
  broadcastToClients JSON_stringify message w
  = (Returned tt,
     logged w (CallStringify message
               :: deliveries (JSON_stringify message) (clients w))).
Proof.
  intros Hok. unfold broadcastToClients, stringify, bind, logEffect, ret.
  fold (logged w [CallStringify message]).
  change (clients (logged w [CallStringify message])) with (clients w).
  rewrite forEach_delivers by exact Hok. now rewrite logged_logged.
Qed.

Lemma broadcast_throws (JSON_stringify : Message -> string) (message : Message)
  (w : World) (before after : list WebSocket) (c : WebSocket) :
  clients w = before ++ c :: after ->
  sendsGoThrough before -> isOpen c = true -> sendThrows c = true ->
  fst (broadcastToClients JSON_stringify message w) = Thrown.
Proof.
  intros Hcs Hok Hopen Hthrows.
  unfold broadcastToClients, stringify, bind, logEffect, ret.
  fold (logged w [CallStringify message]).
  change (clients (logged w [CallStringify message])) with (clients w).
  now rewrite Hcs, forEach_stops by assumption.
Qed.

Lemma filter_set_length {V : Type} (P : V -> bool) (m : JsMap.t V)
  (k : string) (v : V) :
  length (filter P (JsMap.values (JsMap.set k v m)))
  <= length (filter P (JsMap.values m)) + (if P v then 1 else 0).
Proof.
  unfold JsMap.values. induction m as [|[k0 v0] m IH]; simpl.
  - destruct (P v); simpl; lia.
  - destruct (String.eqb k k0); simpl.
    + destruct (P v), (P v0); simpl; lia.
    + destruct (P v0); simpl; lia.
Qed.

Lemma createLink_at_most_once (this : MemStorage) (insertLink : InsertLink.t)
  (id : string) (now : Date) :
  getLinksBetween this (InsertLink.fromBlockId insertLink)
                       (InsertLink.toBlockId insertLink) = [] ->
  linksAtMostOnce this ->
  linksAtMostOnce (snd (createLink this insertLink id now)).
Proof.
  intros Hnone Hinv a b. unfold getLinksBetween in *. simpl.
  set (P := fun link : Link.t =>
              String.eqb (Link.fromBlockId link) a
              && String.eqb (Link.toBlockId link) b
              || String.eqb (Link.fromBlockId link) b
                 && String.eqb (Link.toBlockId link) a).
  set (link := Link.mk id _ _ now).
  pose proof (filter_set_length P (links this) id link) as Hlen.
  specialize (Hinv a b).
  change (length (filter P (JsMap.values (links this))) <= 1) in Hinv.
  destruct (P link) eqn:HP; [|lia].
  assert (Hsame : filter P (JsMap.values (links this)) = []).
  { rewrite <- Hnone. apply filter_ext. intros l. unfold P in *. simpl in HP.
    apply orb_true_iff in HP. rewrite !andb_true_iff, !String.eqb_eq in HP.
    destruct HP as [[-> ->]|[-> ->]]; [reflexivity|apply orb_comm]. }
  rewrite Hsame in Hlen. simpl in Hlen. lia.
Qed.

(** X12.  Whatever the request and whatever comes of it (created,
    rejected, invalid, broadcast thrown), [POST /api/links] keeps the link
    table free of duplicates: if no two links joined the same pair of
    blocks before, in either direction, none do afterwards. *)
Theorem postApiLinks_at_most_once (JSON_stringify : Message -> string)
  (parsed : option InsertLink.t) (id : string) (now : Date) (w : World) :
  linksAtMostOnce (storage w) ->
  linksAtMostOnce (storage (snd (postApiLinks JSON_stringify parsed id now w))).
Proof.
  intros Hinv. unfold postApiLinks, tryCatch, parse.
  destruct parsed as [validatedLink|]; [|exact Hinv].
  unfold bind at 1. unfold ret at 1.
  unfold bind at 1, storage_getLinksBetween, bind at 1, logEffect, ret at 1.
  cbn [storage clients trace].
  destruct (getLinksBetween (storage w) (InsertLink.fromBlockId validatedLink)
                            (InsertLink.toBlockId validatedLink))
    as [|l ls] eqn:Hnone; [|exact Hinv].
  cbn [length Nat.ltb Nat.leb].
  unfold bind at 1, storage_createLink, bind at 1, logEffect.
  cbn [storage clients trace createLink fst snd].
  set (link := Link.mk id _ _ now). set (w' := mkWorld _ _ _).
  assert (Hw' : linksAtMostOnce (storage w')).
  { exact (createLink_at_most_once (storage w) validatedLink id now Hnone Hinv). }
  unfold bind.
  pose proof (broadcast_frame JSON_stringify
                (mkMessage "link_created" (PayloadLink link)) w') as [Hs _].
  destruct (broadcastToClients JSON_stringify
              (mkMessage "link_created" (PayloadLink link)) w')
    as [[[]|] w''] eqn:Hb; simpl in Hs |- *; unfold ret; simpl;
    now rewrite Hs.
Qed.

Lemma postApiLinks_at_most_once_witness :
  linksAtMostOnce
    (storage (snd (postApiLinks sampleStringify (Some (InsertLink.mk "B" "A"))
                                "L2" 6%Z brokenFirstWorld))).
Proof.
  apply (postApiLinks_at_most_once sampleStringify
           (Some (InsertLink.mk "B" "A")) "L2" 6%Z brokenFirstWorld).
  intros a b. unfold getLinksBetween.
  change (JsMap.values (links (storage brokenFirstWorld)))
    with [Link.mk "L1" "A" "B" 3%Z].
  cbn [filter].
  match goal with |- context [if ?c then _ else _] => destruct c end;
    simpl; lia.
Defined.

(** X13.  When no link joins the two endpoints yet and no send throws,
    [POST /api/links] answers 200 with the new link, stores it, and
    broadcasts one [link_created] message that carries it to every ready
    connection.  The handler never looks at the block table: the link is
    created whether or not its endpoints are blocks of the store, and also
    from a block to itself. *)
Theorem postApiLinks_created (JSON_stringify : Message -> string)
  (validatedLink : InsertLink.t) (id : string) (now : Date) (w : World) :
  getLinksBetween (storage w) (InsertLink.fromBlockId validatedLink)
                              (InsertLink.toBlockId validatedLink) = [] ->
  sendsGoThrough (clients w) ->
  let link := Link.mk id (InsertLink.fromBlockId validatedLink)
                         (InsertLink.toBlockId validatedLink) now in
  let message := mkMessage "link_created" (PayloadLink link) in
  postApiLinks JSON_stringify (Some validatedLink) id now w
  = (Returned (mkResponse 200%Z (JsonLink link)),
     logged (stored w (snd (createLink (storage w) validatedLink id now)))
            ([CallGetLinksBetween (InsertLink.fromBlockId validatedLink)
                                  (InsertLink.toBlockId validatedLink);
              CallCreateLink validatedLink;
              CallStringify message]
             ++ deliveries (JSON_stringify message) (clients w))).
Proof.
  intros Hnone Hok link message.
  unfold postApiLinks, tryCatch, parse.
  unfold bind at 1. unfold ret at 1.
  unfold bind at 1, storage_getLinksBetween, bind at 1, logEffect, ret at 1.
  cbn [storage clients trace]. rewrite Hnone. cbn [length Nat.ltb Nat.leb].
  unfold bind at 1, storage_createLink, bind at 1, logEffect.
  cbn [storage clients trace createLink fst snd].
  fold link. fold message. unfold bind.
  rewrite broadcast_returns by exact Hok.
  unfold ret, logged, stored. cbn [storage clients trace createLink snd].
  rewrite <- !app_assoc. reflexivity.
Qed.

Lemma postApiLinks_created_witness :
  postApiLinks sampleStringify (Some (InsertLink.mk "Q" "Q")) "L7" 8%Z
               healthyWorld
  = (Returned (mkResponse 200%Z (JsonLink (Link.mk "L7" "Q" "Q" 8%Z))),
     logged (stored healthyWorld
               (snd (createLink sampleStore (InsertLink.mk "Q" "Q") "L7" 8%Z)))
            ([CallGetLinksBetween "Q" "Q";
              CallCreateLink (InsertLink.mk "Q" "Q");
              CallStringify
                (mkMessage "link_created"
                           (PayloadLink (Link.mk "L7" "Q" "Q" 8%Z)))]
             ++ deliveries "link_created" (clients healthyWorld))).
Proof.
  apply (postApiLinks_created sampleStringify (InsertLink.mk "Q" "Q") "L7" 8%Z
           healthyWorld).
  - reflexivity.
  - intros client Hin _. simpl in Hin.
    destruct Hin as [<-|[<-|[<-|[]]]]; reflexivity.
Defined.

(** X14.  The reading routes ([GET] of the blocks, of one block, of the
    search, of the links, of the comments of a block and of the graph)
    leave the world as it is: storage, registry and trace are unchanged,
    so nothing is broadcast. *)
Theorem reads_leave_world (toLowerCase : string -> string) (w : World)
  (id : string) (q : QueryValue) :
  snd (getApiBlocks w) = w
  /\ snd (getApiBlock id w) = w
  /\ snd (getApiSearch toLowerCase q w) = w
  /\ snd (getApiLinks w) = w
  /\ snd (getApiComments id w) = w
  /\ snd (getApiGraph w) = w.
Proof.
  unfold getApiBlocks, getApiBlock, getApiSearch, getApiLinks, getApiComments,
    getApiGraph, tryCatch, bind, readStorage, ret, throw.
  repeat split; simpl.
  - now destruct (getBlockWithLinks (storage w) id).
  - destruct q as [|text|]; [reflexivity| |reflexivity].
    unfold truthy. now destruct (String.eqb text "").
  - now destruct (getCommentsForBlock (storage w) id).
Qed.

(** X15.  A mutating route whose target id is absent answers 404 and
    leaves the world exactly as it was, with nothing broadcast: [PUT] and
    [DELETE] of a block, [DELETE] of a link, [DELETE] of a comment. *)
Theorem missing_target_404 (JSON_stringify : Message -> string) (w : World)
  (id : string) (updates : PartialInsertBlock.t) (now : Date) :
  (getBlock (storage w) id = None ->
     putApiBlock JSON_stringify id (Some updates) now w
     = (Returned (mkReply 404%Z (JsonError "Block not found")), w)
     /\ deleteApiBlock JSON_stringify id w
        = (Returned (mkReply 404%Z (JsonError "Block not found")), w))
  /\ (JsMap.get id (links (storage w)) = None ->
        deleteApiLink JSON_stringify id w
        = (Returned (mkReply 404%Z (JsonError "Link not found")), w))
  /\ (JsMap.get id (comments (storage w)) = None ->
        deleteApiComment JSON_stringify id w
        = (Returned (mkReply 404%Z (JsonError "Comment not found")), w)).
Proof.
  destruct w as [[bs ls cs] regs tr]. unfold getBlock. simpl.
  split; [|split].
  - intros H. split.
    + unfold putApiBlock, tryCatch, bind, parseBody, ret, withStorage,
        updateBlock. simpl. now rewrite H.
    + unfold deleteApiBlock, tryCatch, bind, ret, withStorage, deleteBlock,
        JsMap.delete. simpl.
      rewrite (proj2 (has_get _ _) H), (remove_absent _ _ H). reflexivity.
  - intros H.
    unfold deleteApiLink, tryCatch, bind, ret, withStorage, deleteLink,
      JsMap.delete. simpl.
    rewrite (proj2 (has_get _ _) H), (remove_absent _ _ H). reflexivity.
  - intros H.
    unfold deleteApiComment, tryCatch, bind, ret, withStorage, deleteComment,
      JsMap.delete. simpl.
    rewrite (proj2 (has_get _ _) H), (remove_absent _ _ H). reflexivity.
Qed.

Lemma has_true_get {V : Type} (m : JsMap.t V) (k : string) :
  JsMap.get k m <> None -> JsMap.has k m = true.
Proof. unfold JsMap.has. destruct (JsMap.get k m); congruence. Qed.

(** X16.  When the block exists and no send throws, [DELETE
    /api/blocks/:id] answers 200 with [{ success: true }], the storage is
    the one [deleteBlock] leaves (the block, its links and its comments
    gone), and one [block_deleted] message carrying the id goes to every
    ready connection. *)
Theorem deleteApiBlock_deleted (JSON_stringify : Message -> string)
  (id : string) (w : World) :
  getBlock (storage w) id <> None ->
  sendsGoThrough (clients w) ->
  let message := mkMessage "block_deleted" (PayloadId id) in
  deleteApiBlock JSON_stringify id w
  = (Returned (mkReply 200%Z JsonSuccess),
     logged (stored w (snd (deleteBlock (storage w) id)))
            (CallStringify message
             :: deliveries (JSON_stringify message) (clients w)))
  /\ getBlock (snd (deleteBlock (storage w) id)) id = None.
Proof.
  intros Hget Hok message. unfold getBlock in *.
  pose proof (has_true_get _ _ Hget) as Hhas. split.
  - unfold deleteApiBlock, tryCatch, bind at 1, withStorage.
    destruct (deleteBlock (storage w) id) as [deleted this'] eqn:Hdel.
    assert (Hd : deleted = true).
    { unfold deleteBlock, JsMap.delete in Hdel. rewrite Hhas in Hdel.
      now injection Hdel as <- _. }
    subst deleted. cbn [negb snd]. unfold bind. fold message.
    fold (stored w this').
    rewrite broadcast_returns by exact Hok. reflexivity.
  - unfold deleteBlock, JsMap.delete. rewrite Hhas. simpl.
    apply JsMapFacts.get_remove_eq.
Qed.

Lemma deleteApiBlock_deleted_witness :
  deleteApiBlock sampleStringify "A" healthyWorld
  = (Returned (mkReply 200%Z JsonSuccess),
     logged (stored healthyWorld (snd (deleteBlock sampleStore "A")))
            (CallStringify (mkMessage "block_deleted" (PayloadId "A"))
             :: deliveries "block_deleted" (clients healthyWorld)))
  /\ getBlock (snd (deleteBlock sampleStore "A")) "A" = None.
Proof.
  apply (deleteApiBlock_deleted sampleStringify "A" healthyWorld).
  - discriminate.
  - intros client Hin _. simpl in Hin.
    destruct Hin as [<-|[<-|[<-|[]]]]; reflexivity.
Defined.

(** X17.  A mutation is not undone when its broadcast throws: with a
    ready connection whose send throws (the ready connections before it
    being fine), [DELETE /api/blocks/:id] of a stored block answers 500
    "Failed to delete block" although the block is gone, and [POST
    /api/blocks] answers 400 "Invalid block data" although the block is
    stored. *)
Theorem broadcast_failure_keeps_mutation (JSON_stringify : Message -> string)
  (w : World) (before after : list WebSocket) (c : WebSocket) :
  clients w = before ++ c :: after ->
  sendsGoThrough before -> isOpen c = true -> sendThrows c = true ->
  (forall id, getBlock (storage w) id <> None ->
     fst (deleteApiBlock JSON_stringify id w)
     = Returned (mkReply 500%Z (JsonError "Failed to delete block"))
     /\ getBlock (storage (snd (deleteApiBlock JSON_stringify id w))) id = None)
  /\ (forall validatedBlock id now,
        fst (postApiBlocks JSON_stringify (Some validatedBlock) id now w)
        = Returned (mkReply 400%Z (JsonError "Invalid block data"))
        /\ getBlock (storage (snd (postApiBlocks JSON_stringify
                                     (Some validatedBlock) id now w))) id
           = Some (fst (createBlock (storage w) validatedBlock id now))).
Proof.
  intros Hcs Hok Hopen Hthrows. split.
  - intros id Hget. unfold getBlock in Hget.
    pose proof (has_true_get _ _ Hget) as Hhas.
    assert (H : exists w'',
               deleteApiBlock JSON_stringify id w
               = (Returned (mkReply 500%Z (JsonError "Failed to delete block")),
                  w'')
               /\ getBlock (storage w'') id = None).
    { unfold deleteApiBlock, tryCatch, bind at 1, withStorage.
      destruct (deleteBlock (storage w) id) as [deleted this'] eqn:Hdel.
      assert (Hd : deleted = true /\ getBlock this' id = None).
      { unfold deleteBlock, JsMap.delete in Hdel. rewrite Hhas in Hdel.
        injection Hdel as <- <-. split; [reflexivity|].
        apply JsMapFacts.get_remove_eq. }
      destruct Hd as [-> Hgone]. cbn [negb]. unfold bind.
      fold (stored w this').
      pose proof (broadcast_throws JSON_stringify
                    (mkMessage "block_deleted" (PayloadId id)) (stored w this')
                    before after c Hcs Hok Hopen Hthrows) as Hthrown.
      pose proof (broadcast_frame JSON_stringify
                    (mkMessage "block_deleted" (PayloadId id)) (stored w this'))
        as [Hs _].
      destruct (broadcastToClients JSON_stringify
                  (mkMessage "block_deleted" (PayloadId id)) (stored w this'))
        as [[[]|] w'']; [discriminate|].
      exists w''. split; [reflexivity|]. simpl in Hs. now rewrite Hs. }
    destruct H as (w'' & -> & Hgone). now split.
  - intros validatedBlock id now.
    assert (H : exists w'',
               postApiBlocks JSON_stringify (Some validatedBlock) id now w
               = (Returned (mkReply 400%Z (JsonError "Invalid block data")), w'')
               /\ getBlock (storage w'') id
                  = Some (fst (createBlock (storage w) validatedBlock id now))).
    { unfold postApiBlocks, tryCatch, bind at 1, parseBody, ret at 1.
      unfold bind at 1, withStorage.
      destruct (createBlock (storage w) validatedBlock id now)
        as [block this'] eqn:Hcreate.
      assert (Hstored : getBlock this' id = Some block).
      { unfold createBlock in Hcreate. injection Hcreate as <- <-.
        apply JsMapFacts.get_set_eq. }
      unfold bind. fold (stored w this').
      pose proof (broadcast_throws JSON_stringify
                    (mkMessage "block_created" (PayloadBlock block))
                    (stored w this') before after c Hcs Hok Hopen Hthrows)
        as Hthrown.
      pose proof (broadcast_frame JSON_stringify
                    (mkMessage "block_created" (PayloadBlock block))
                    (stored w this')) as [Hs _].
      destruct (broadcastToClients JSON_stringify
                  (mkMessage "block_created" (PayloadBlock block))
                  (stored w this'))
        as [[[]|] w'']; [discriminate|].
      exists w''. split; [reflexivity|]. simpl in Hs. now rewrite Hs. }
    destruct H as (w'' & -> & Hstored). now split.
Qed.

Lemma broadcast_failure_keeps_mutation_witness :
  (forall id, getBlock (storage brokenFirstWorld) id <> None ->
     fst (deleteApiBlock sampleStringify id brokenFirstWorld)
     = Returned (mkReply 500%Z (JsonError "Failed to delete block"))
     /\ getBlock (storage (snd (deleteApiBlock sampleStringify id
                                               brokenFirstWorld))) id
        = None)
  /\ (forall validatedBlock id now,
        fst (postApiBlocks sampleStringify (Some validatedBlock) id now
                           brokenFirstWorld)
        = Returned (mkReply 400%Z (JsonError "Invalid block data"))
        /\ getBlock (storage (snd (postApiBlocks sampleStringify
                                     (Some validatedBlock) id now
                                     brokenFirstWorld))) id
           = Some (fst (createBlock (storage brokenFirstWorld)
                                    validatedBlock id now))).
Proof.
  apply (broadcast_failure_keeps_mutation sampleStringify brokenFirstWorld
           [] [readyClient] brokenClient).
  - reflexivity.
  - intros client [].
  - reflexivity.
  - reflexivity.
Defined.

(** X18.  [POST /api/blocks/:blockId/comments] stores the comment on the
    block of the URL, whatever [blockId] the body carries, with an empty
    [parentId] turned into null, and (no send throwing) broadcasts one
    [comment_created] message with it.  Neither the block nor the parent
    is looked up: the comment is created even when they do not exist. *)
Theorem postApiComments_created (JSON_stringify : Message -> string)
  (blockId : string) (body : InsertComment.t) (id : string) (now : Date)
  (w : World) :
  sendsGoThrough (clients w) ->
  let comment :=
    Comment.mk id blockId (InsertComment.content body)
               (InsertComment.authorId body) (InsertComment.authorName body)
               (truthy (InsertComment.parentId body)) now in
  let message := mkMessage "comment_created" (PayloadComment comment) in
  postApiComments JSON_stringify blockId (Some body) id now w
  = (Returned (mkReply 200%Z (JsonComment comment)),
     logged (stored w (mkMemStorage (blocks (storage w)) (links (storage w))
                         (JsMap.set id comment (comments (storage w)))))
            (CallStringify message
             :: deliveries (JSON_stringify message) (clients w)))
  /\ JsMap.get id (JsMap.set id comment (comments (storage w))) = Some comment.
Proof.
  intros Hok comment message. split; [|apply JsMapFacts.get_set_eq].
  unfold postApiComments, tryCatch, bind at 1, parseBody, option_map, ret at 1.
  unfold bind at 1, withStorage, createComment.
  cbn [InsertComment.blockId InsertComment.content InsertComment.authorId
       InsertComment.authorName InsertComment.parentId].
  fold comment. fold message. unfold bind.
  match goal with
  | |- context [broadcastToClients _ _ ?w0] =>
      change w0 with
        (stored w (mkMemStorage (blocks (storage w)) (links (storage w))
                     (JsMap.set id comment (comments (storage w)))))
  end.
  rewrite broadcast_returns by exact Hok. reflexivity.
Qed.

Lemma postApiComments_created_witness :
  postApiComments sampleStringify "nowhere"
                  (Some (InsertComment.mk "A" "text" "u1" "Ann" (Some "")))
                  "C9" 7%Z healthyWorld
  = (Returned (mkReply 200%Z
                 (JsonComment (Comment.mk "C9" "nowhere" "text" "u1" "Ann"
                                          None 7%Z))),
     logged (stored healthyWorld
               (mkMemStorage (blocks sampleStore) (links sampleStore)
                  (JsMap.set "C9"
                     (Comment.mk "C9" "nowhere" "text" "u1" "Ann" None 7%Z)
                     (comments sampleStore))))
            (CallStringify
               (mkMessage "comment_created"
                  (PayloadComment
                     (Comment.mk "C9" "nowhere" "text" "u1" "Ann" None 7%Z)))
             :: deliveries "comment_created" (clients healthyWorld)))
  /\ JsMap.get "C9"
       (JsMap.set "C9" (Comment.mk "C9" "nowhere" "text" "u1" "Ann" None 7%Z)
                  (comments sampleStore))
     = Some (Comment.mk "C9" "nowhere" "text" "u1" "Ann" None 7%Z).
Proof.
  apply (postApiComments_created sampleStringify "nowhere"
           (InsertComment.mk "A" "text" "u1" "Ann" (Some "")) "C9" 7%Z
           healthyWorld).
  intros client Hin _. simpl in Hin.
  destruct Hin as [<-|[<-|[<-|[]]]]; reflexivity.
Defined.

(** ** The registry *)

Lemma setAdd_NoDup (c : WebSocket) (cs : list WebSocket) :
  NoDup (map ws cs) -> NoDup (map ws (setAdd c cs)).
Proof.
  intros Hnd. unfold setAdd.
  destruct (existsb (sameSocket c) cs) eqn:E; [exact Hnd|].
  rewrite map_app. simpl.
  apply NoDup_app; [exact Hnd|repeat constructor; intros []|].
  intros n Hn [<-|[]]. apply in_map_iff in Hn. destruct Hn as (c' & Hws & Hc').
  assert (Hex : existsb (sameSocket c) cs = true).
  { apply existsb_exists. exists c'. split; [exact Hc'|].
    unfold sameSocket. rewrite Hws. apply Nat.eqb_refl. }
  congruence.
Qed.

Lemma setDelete_NoDup (c : WebSocket) (cs : list WebSocket) :
  NoDup (map ws cs) -> NoDup (map ws (setDelete c cs)).
Proof. unfold setDelete. apply filter_keeps_distinct. Qed.

Lemma deliveries_isSendTo (data : string) (cs : list WebSocket) (n : nat) :
  filter (isSendTo n) (deliveries data cs)
  = map (fun client => CallSend (ws client) data)
        (filter (fun client => isOpen client && Nat.eqb (ws client) n) cs).
Proof.
  unfold deliveries. induction cs as [|c cs IH]; [reflexivity|].
  simpl. destruct (isOpen c); simpl; [|exact IH].
  destruct (Nat.eqb (ws c) n); simpl; now rewrite IH.
Qed.

Lemma filter_ws_length (cs : list WebSocket) (n : nat) (p : WebSocket -> bool) :
  NoDup (map ws cs) ->
  length (filter (fun client => p client && Nat.eqb (ws client) n) cs) <= 1.
Proof.
  induction cs as [|c cs IH]; intros Hnd; simpl; [lia|].
  inversion Hnd as [|? ? Hc Hcs]; subst.
  destruct (p c && Nat.eqb (ws c) n) eqn:E; [|now apply IH].
  apply andb_true_iff in E. destruct E as [_ E]. apply Nat.eqb_eq in E.
  rewrite (JsArrayFacts.filter_none _ cs); [simpl; lia|].
  intros c' Hc'. destruct (Nat.eqb_spec (ws c') n) as [E'|]; [|apply andb_false_r].
  exfalso. apply Hc. rewrite E, <- E'. now apply in_map.
Qed.

(** X19.  The registry never holds a socket twice: the [connection],
    [close] and [error] events keep it so.  Hence a broadcast whose sends
    all go through sends the event exactly once to a registered ready
    connection, and after the [close] or [error] event of a connection it
    sends that connection nothing. *)
Theorem registry_exactly_once (JSON_stringify : Message -> string)
  (message : Message) (w : World) (c : WebSocket) :
  registryOk w ->
  sendsGoThrough (clients w) ->
  registryOk (onConnection c w) /\ registryOk (onClose c w)
  /\ registryOk (onError c w)
  /\ (In c (clients w) -> isOpen c = true ->
      filter (isSendTo (ws c))
             (deliveries (JSON_stringify message) (clients w))
      = [CallSend (ws c) (JSON_stringify message)])
  /\ snd (broadcastToClients JSON_stringify message (onClose c w))
     = logged (onClose c w)
              (CallStringify message
               :: deliveries (JSON_stringify message) (clients (onClose c w)))
  /\ filter (isSendTo (ws c))
            (deliveries (JSON_stringify message) (clients (onClose c w)))
     = []
  /\ clients (onError c w) = clients (onClose c w).
Proof.
  intros Hreg Hok. unfold registryOk in *.
  split; [now apply setAdd_NoDup|]. split; [now apply setDelete_NoDup|].
  split; [now apply setDelete_NoDup|]. split; [|split; [|split]].
  - intros Hin Hopen. rewrite deliveries_isSendTo.
    pose proof (filter_ws_length (clients w) (ws c) isOpen Hreg) as Hlen.
    assert (Hc : In c (filter (fun client => isOpen client
                                             && Nat.eqb (ws client) (ws c))
                              (clients w))).
    { apply filter_In. split; [exact Hin|]. now rewrite Hopen, Nat.eqb_refl. }
    destruct (filter _ (clients w)) as [|c' [|c'' l]]; simpl in *;
      [destruct Hc| |lia].
    destruct Hc as [->|[]]. reflexivity.
  - rewrite broadcast_returns; [reflexivity|].
    intros client Hin. apply Hok. simpl in Hin. unfold setDelete in Hin.
    now apply filter_In in Hin.
  - rewrite deliveries_isSendTo. simpl. unfold setDelete.
    rewrite (JsArrayFacts.filter_none _ (filter _ (clients w))); [reflexivity|].
    intros c' Hc'. apply filter_In in Hc'. destruct Hc' as [_ Hc'].
    unfold sameSocket in Hc'. rewrite Nat.eqb_sym in Hc'.
    destruct (Nat.eqb (ws c') (ws c)); [discriminate|apply andb_false_r].
  - reflexivity.
Qed.

Lemma registry_exactly_once_witness :
  registryOk (onConnection readyClient healthyWorld)
  /\ registryOk (onClose readyClient healthyWorld)
  /\ registryOk (onError readyClient healthyWorld)
  /\ (In readyClient (clients healthyWorld) -> isOpen readyClient = true ->
      filter (isSendTo (ws readyClient))
             (deliveries (sampleStringify sampleMessage) (clients healthyWorld))
      = [CallSend (ws readyClient) (sampleStringify sampleMessage)])
  /\ snd (broadcastToClients sampleStringify sampleMessage
                             (onClose readyClient healthyWorld))
     = logged (onClose readyClient healthyWorld)
              (CallStringify sampleMessage
               :: deliveries (sampleStringify sampleMessage)
                             (clients (onClose readyClient healthyWorld)))
  /\ filter (isSendTo (ws readyClient))
            (deliveries (sampleStringify sampleMessage)
                        (clients (onClose readyClient healthyWorld)))
     = []
  /\ clients (onError readyClient healthyWorld)
     = clients (onClose readyClient healthyWorld).
Proof.
  apply (registry_exactly_once sampleStringify sampleMessage healthyWorld
           readyClient).
  - unfold registryOk. simpl. repeat constructor; simpl; intuition discriminate.
  - intros client Hin _. simpl in Hin.
    destruct Hin as [<-|[<-|[<-|[]]]]; reflexivity.
Defined.

(** ** searchBlocks *)

Lemma prefix_append (search : string) :
  forall s : string,
    String.prefix search s = true
    <-> exists post : string, s = String.append search post.
Proof.
  induction search as [|a search IH]; intros s.
  - split; [intros _; now exists s|intros _; now destruct s].
  - destruct s as [|b s]; simpl.
    + split; [discriminate|intros [post H]; discriminate].
    + destruct (Ascii.ascii_dec a b) as [->|Hne].
      * rewrite IH. split; intros [post H]; exists post.
        -- now rewrite H.
        -- now injection H.
      * split; [discriminate|]. intros [post H]. injection H as H _.
        congruence.
Qed.

Lemma includes_unfold (s search : string) :
  includes s search
  = String.prefix search s
    || match s with
       | EmptyString => false
       | String _ s' => includes s' search
       end.
Proof. now destruct s. Qed.

(** [includes] is the substring test. *)
Lemma includes_occursIn (search : string) :
  forall s : string, includes s search = true <-> occursIn search s.
Proof.
  unfold occursIn. intros s. split.
  - induction s as [|a s IH]; rewrite includes_unfold, orb_true_iff.
    + intros [H|H]; [|discriminate].
      apply prefix_append in H. destruct H as [post H].
      now exists EmptyString, post.
    + intros [H|H].
      * apply prefix_append in H. destruct H as [post H].
        now exists EmptyString, post.
      * destruct (IH H) as (pre & post & E).
        exists (String a pre), post. simpl. now rewrite E.
  - intros (pre & post & E). subst s.
    induction pre as [|a pre IH]; rewrite includes_unfold, orb_true_iff.
    + left. apply prefix_append. now exists post.
    + right. exact IH.
Qed.

(** X20.  [searchBlocks] returns exactly the blocks of the table in whose
    lower-cased title, content or one of whose lower-cased tags the
    lower-cased query occurs as a substring (a block whose [tags] is null
    is matched on title and content only), in insertion order.  The
    search route answers 400 without searching when [q] is absent or the
    empty string, 200 with these blocks when [q] is a non-empty string,
    and 500 "Search failed" when [q] is an array or an object. *)
Theorem searchBlocks_matches (toLowerCase : string -> string)
  (this : MemStorage) (query : string) (w : World) :
  (forall block,
     In block (searchBlocks toLowerCase this query)
     <-> In block (JsMap.values (blocks this))
         /\ (occursIn (toLowerCase query) (toLowerCase (Block.title block))
             \/ occursIn (toLowerCase query) (toLowerCase (Block.content block))
             \/ exists tags tag,
                  Block.tags block = Some tags /\ In tag tags
                  /\ occursIn (toLowerCase query) (toLowerCase tag)))
  /\ (exists keep, searchBlocks toLowerCase this query
                   = filter keep (JsMap.values (blocks this)))
  /\ getApiSearch toLowerCase QueryUndefined w
     = (Returned (mkReply 400%Z (JsonError "Query parameter required")), w)
  /\ getApiSearch toLowerCase (QueryString "") w
     = (Returned (mkReply 400%Z (JsonError "Query parameter required")), w)
  /\ (query <> "" ->
      getApiSearch toLowerCase (QueryString query) w
      = (Returned (mkReply 200%Z
                     (JsonBlocks (searchBlocks toLowerCase (storage w) query))),
         w))
  /\ getApiSearch toLowerCase QueryStructured w
     = (Returned (mkReply 500%Z (JsonError "Search failed")), w).
Proof.
  split; [|split; [|split; [|split; [|split]]]].
  - intros block. unfold searchBlocks. rewrite filter_In.
    rewrite !orb_true_iff, !includes_occursIn, existsb_exists.
    split; intros [Hin H]; (split; [exact Hin|]).
    + destruct H as [[H|H]|(tag & Htag & H)]; [now left|right; now left|].
      right. right. apply includes_occursIn in H.
      destruct (Block.tags block) as [tags|]; [|destruct Htag].
      now exists tags, tag.
    + destruct H as [H|[H|(tags & tag & Htags & Htag & H)]];
        [left; now left|left; now right|].
      right. exists tag. rewrite Htags. split; [exact Htag|].
      now apply includes_occursIn.
  - unfold searchBlocks. eexists. reflexivity.
  - reflexivity.
  - reflexivity.
  - intros Hne. unfold getApiSearch, tryCatch, truthy.
    destruct (String.eqb_spec query ""); [contradiction|reflexivity].
  - reflexivity.
Qed.

(** ** Queries after a deletion *)

Lemma deleteBlock_clean (this this' : MemStorage) (B : string) :
  deleteBlock this B = (true, this') ->
  JsMap.get B (blocks this') = None
  /\ (forall link, In link (getLinks this') -> touches B link = false)
  /\ (forall comment, In comment (JsMap.values (comments this')) ->
        String.eqb (Comment.blockId comment) B = false).
Proof.
  unfold deleteBlock, JsMap.delete, getLinks, JsMap.entries, touches.
  destruct (JsMap.has B (blocks this)); [|discriminate].
  intros H. injection H as <-. simpl. split; [|split].
  - apply JsMapFacts.get_remove_eq.
  - intros link Hin. unfold JsMap.values in Hin. apply in_map_iff in Hin.
    destruct Hin as [[k l] [<- Hin]]. apply JsMapFacts.In_deleteAll in Hin.
    destruct Hin as [Hin Hk]. simpl in *.
    destruct (_ || _) eqn:E; [|reflexivity]. exfalso. apply Hk.
    change k with (fst (k, l)). apply in_map. apply filter_In. now split.
  - intros comment Hin. unfold JsMap.values in Hin. apply in_map_iff in Hin.
    destruct Hin as [[k c] [<- Hin]]. apply JsMapFacts.In_deleteAll in Hin.
    destruct Hin as [Hin Hk]. simpl in *.
    destruct (String.eqb _ _) eqn:E; [|reflexivity].
    exfalso. apply Hk. change k with (fst (k, c)). apply in_map.
    apply filter_In. now split.
Qed.

(** X21.  After [deleteBlock(B)] has returned [true], every query about
    [B] comes back empty: [getBlockWithLinks(B)] is undefined,
    [getLinksForBlock(B)] and [getLinksBetween] of [B] and any other id,
    in either order, are empty, [getCommentsForBlock(B)] is the empty
    forest, and no edge of [getGraphData] touches [B]. *)
Theorem deleteBlock_then_queries (this this' : MemStorage) (B : string) :
  deleteBlock this B = (true, this') ->
  getBlockWithLinks this' B = None
  /\ getLinksForBlock this' B = []
  /\ (forall other, getLinksBetween this' B other = []
                    /\ getLinksBetween this' other B = [])
  /\ getCommentsForBlock this' B = Some []
  /\ (forall edge, In edge (snd (getGraphData this')) -> touches B edge = false).
Proof.
  intros Hdel. destruct (deleteBlock_clean this this' B Hdel)
    as (Hblock & Hlinks & Hcomments).
  unfold getLinks in Hlinks.
  split; [unfold getBlockWithLinks; now rewrite Hblock|].
  split; [apply JsArrayFacts.filter_none; exact Hlinks|].
  split; [|split; [|exact Hlinks]].
  - intros other. split; apply JsArrayFacts.filter_none; intros link Hin;
      specialize (Hlinks link Hin); unfold touches in Hlinks;
      apply orb_false_iff in Hlinks; destruct Hlinks as [-> ->];
      now rewrite ?andb_false_r.
  - unfold getCommentsForBlock, blockCommentsOf.
    rewrite (JsArrayFacts.filter_none _ _ Hcomments). reflexivity.
Qed.

Lemma deleteBlock_then_queries_witness :
  getBlockWithLinks (snd (deleteBlock selfLinkStore "B")) "B" = None
  /\ getLinksForBlock (snd (deleteBlock selfLinkStore "B")) "B" = []
  /\ (forall other,
        getLinksBetween (snd (deleteBlock selfLinkStore "B")) "B" other = []
        /\ getLinksBetween (snd (deleteBlock selfLinkStore "B")) other "B" = [])
  /\ getCommentsForBlock (snd (deleteBlock selfLinkStore "B")) "B" = Some []
  /\ (forall edge,
        In edge (snd (getGraphData (snd (deleteBlock selfLinkStore "B")))) ->
        touches "B" edge = false).
Proof.
  apply (deleteBlock_then_queries selfLinkStore
           (snd (deleteBlock selfLinkStore "B")) "B").
  reflexivity.
Defined.
